(** * PerfStats: a shallow embedding of [perf_stats.py]

    The recorder of [perf_stats.py] keeps timing samples per
    (category, tag) bucket, pairs [start_record]/[end_record] calls through
    string tokens and aggregates buckets with a one-min/one-max trimmed mean.

    Modelling choices.
    - Python floats.  The recorder keeps samples and clock readings as exact
      rationals [Q]: recording stores, subtracts and compares them.  The
      aggregation of [get_stats], whose results depend on rounding, is
      embedded a second time in IEEE 754 binary64 ([Module Binary64], over
      the primitive floats of the standard library): that embedding is what
      the interpreter computes, and the statements about the values of the
      means are made on it.  [bucket_stats] over [Q] is its reading in exact
      arithmetic; [bucket_stats_exact] relates the two on the buckets where
      no operation rounds.
    - [self._data], a [defaultdict] of [defaultdict]s of lists, is an
      insertion-ordered association list ([odict]), because the report
      enumerates it; [self._start_times], which is only looked up, inserted
      into and popped from, is a [gmap string Q].
    - [time.perf_counter()] reads an oracle [clock : nat -> Q] at the number of
      readings made so far; [threading.get_ident()] is an argument of the call
      (the calling thread); [repr] of a clock reading inside the f-string of
      [start_record] is a parameter [float_repr].
    - methods are state transformers on [Env] (the instance and the number of
      clock readings); no method raises, so they are total functions. *)

From Stdlib Require Import QArith Qround Qabs Lqa Lia ZArith String Ascii List.
From Stdlib Require Import Floats.
From stdpp Require Import gmap strings pretty list.

Open Scope string_scope.

(** A decimal float literal denotes the nearest binary64 number, as a
    Python literal does. *)
Set Warnings "-inexact-float".

(** ** Insertion-ordered dictionaries (Python [dict]) *)

Section odict.
Context {V : Type}.

Fixpoint od_get (k : string) (d : list (string * V)) : option V :=
  match d with
  | [] => None
  | (k', v) :: d' => if decide (k = k') then Some v else od_get k d'
  end.

(** [d[k] = v]: an existing key keeps its position, a new key goes last. *)
Fixpoint od_set (k : string) (v : V) (d : list (string * V)) : list (string * V) :=
  match d with
  | [] => [(k, v)]
  | (k', v') :: d' =>
      if decide (k = k') then (k, v) :: d' else (k', v') :: od_set k v d'
  end.

Definition od_keys (d : list (string * V)) : list string := map fst d.
End odict.

Abbreviation odict V := (list (string * V)).

(** ** Small pieces of Python's string formatting *)

Fixpoint spaces (n : nat) : string :=
  match n with O => "" | S n' => String " " (spaces n') end.

Fixpoint repeat_char (c : ascii) (n : nat) : string :=
  match n with O => "" | S n' => String c (repeat_char c n') end.

(** [f"{s:<w}"]: pad on the right to width [w], never truncate. *)
Definition ljust (w : nat) (s : string) : string :=
  s +:+ spaces (w - String.length s).

(** ["\n".join(lines)] *)
Fixpoint join_lines (lines : list string) : string :=
  match lines with
  | [] => ""
  | [l] => l
  | l :: rest => l +:+ String "010" (join_lines rest)
  end.

(** Round to the nearest integer, ties to even, for [q >= 0]. *)
Definition round_half_even (q : Q) : Z :=
  let fl := Qfloor q in
  let r := (q - inject_Z fl)%Q in
  match (r ?= 1 # 2)%Q with
  | Lt => fl
  | Gt => (fl + 1)%Z
  | Eq => if Z.even fl then fl else (fl + 1)%Z
  end.

(** Zero-pad a number below 1000 to three digits. *)
Definition pad3 (n : N) : string :=
  let s := pretty n in
  repeat_char "0" (3 - String.length s) +:+ s.

(** [f"{x:.3f}"]: sign, integer part, a dot and three decimals. *)
Definition format_3f (x : Q) : string :=
  let n := Z.to_N (round_half_even (Qabs x * 1000)%Q) in
  (if Qlt_le_dec x 0 then "-" else "") +:+
  pretty (n / 1000)%N +:+ "." +:+ pad3 (n mod 1000)%N.

(** ** Aggregation of one bucket, in exact arithmetic

    The statistics of a bucket with every operation exact.  The report and
    the queries are stated on this reading; what [get_stats] computes in
    binary64 is [Binary64.bucket_stats] below. *)

Record Stat := {
  stat_count : nat;
  stat_min : Q;
  stat_max : Q;
  avg_filtered : Q;
  avg_raw : Q
}.

(** [min(values)], [max(values)] on a list with head [x]: the running
    extremum changes only on a strict improvement. *)
Definition py_min (x : Q) (xs : list Q) : Q :=
  fold_left (fun m y => if Qlt_le_dec y m then y else m) xs x.

Definition py_max (x : Q) (xs : list Q) : Q :=
  fold_left (fun m y => if Qlt_le_dec m y then y else m) xs x.

(** [sum(values)]: starts from 0 and adds from the left, here without
    rounding ([Binary64.py_sum] rounds after every addition). *)
Definition py_sum (values : list Q) : Q := fold_left Qplus values 0%Q.

Definition Q_of_nat (n : nat) : Q := inject_Z (Z.of_nat n).

(** The body of the inner loop of [get_stats] in exact arithmetic; [None] is
    the [continue] taken on an empty bucket. *)
Definition bucket_stats (values : list Q) : option Stat :=
  match values with
  | [] => None
  | x :: xs =>
      let count := length values in
      let min_val := py_min x xs in
      let max_val := py_max x xs in
      let total := py_sum values in
      let avg_val :=
        if (2 <? count)%nat
        then ((total - min_val - max_val) / Q_of_nat (count - 2))%Q
        else (total / Q_of_nat count)%Q in
      Some {| stat_count := count;
              stat_min := min_val;
              stat_max := max_val;
              avg_filtered := avg_val;
              avg_raw := (total / Q_of_nat count)%Q |}
  end.

(** ** The recorder *)

Record PerfStats := {
  _data : odict (odict (list Q));
  _start_times : gmap string Q;
  _enabled : bool
}.

(** The instance and the number of [perf_counter] readings made so far. *)
Record Env := { self : PerfStats; readings : nat }.

Definition St (A : Type) : Type := Env -> A * Env.

Definition ret {A} (a : A) : St A := fun e => (a, e).
Definition bind {A B} (m : St A) (k : A -> St B) : St B :=
  fun e => let '(a, e') := m e in k a e'.

Notation "'do' x <- m ; k" := (bind m (fun x => k))
  (at level 10, x name, m at level 100, k at level 200).
Notation "m ;; k" := (bind m (fun _ => k))
  (at level 100, k at level 200, right associativity).

Definition get_self : St PerfStats := fun e => (self e, e).
Definition put_self (s : PerfStats) : St unit :=
  fun e => (tt, {| self := s; readings := readings e |}).

(** [__init__] on the first construction of the singleton. *)
Definition fresh : PerfStats :=
  {| _data := []; _start_times := ∅; _enabled := true |}.

(** [self._data[category][tag].append(x)] on the nested [defaultdict]. *)
Definition data_append (category tag : string) (x : Q)
    (data : odict (odict (list Q))) : odict (odict (list Q)) :=
  let inner := default [] (od_get category data) in
  let bucket := default [] (od_get tag inner) in
  od_set category (od_set tag (bucket ++ [x])%list inner) data.

Definition bucket (category tag : string) (s : PerfStats) : list Q :=
  default [] (od_get tag (default [] (od_get category (_data s)))).

Section recorder.
(** The host's monotonic clock and Python's [repr] of a float. *)
Variable clock : nat -> Q.
Variable float_repr : Q -> string.

Definition perf_counter : St Q :=
  fun e => (clock (readings e),
            {| self := self e; readings := S (readings e) |}).

Definition enable : St unit :=
  do s <- get_self;
  put_self {| _data := _data s; _start_times := _start_times s;
              _enabled := true |}.

Definition disable : St unit :=
  do s <- get_self;
  put_self {| _data := _data s; _start_times := _start_times s;
              _enabled := false |}.

Definition init : St unit :=
  do s <- get_self;
  put_self {| _data := []; _start_times := ∅; _enabled := _enabled s |}.

Definition deinit : St unit := init.

(** The f-string of [start_record]. *)
Definition make_key (category tag : string) (ident : N) (t : Q) : string :=
  category +:+ "::" +:+ tag +:+ "::" +:+ pretty ident +:+ "::" +:+ float_repr t.

Definition start_record (category tag : string) (ident : N)
    : St (option string) :=
  do s <- get_self;
  if negb (_enabled s) then ret None else
  do t <- perf_counter;
  let key := make_key category tag ident t in
  do t' <- perf_counter;
  put_self {| _data := _data s;
              _start_times := <[key := t']> (_start_times s);
              _enabled := _enabled s |};;
  ret (Some key).

(** [key and key in self._start_times] *)
Definition key_pending (key : option string) (s : PerfStats) : option (string * Q) :=
  match key with
  | None => None
  | Some k =>
      if decide (k = "") then None
      else match _start_times s !! k with
           | Some start_time => Some (k, start_time)
           | None => None
           end
  end.

Definition end_record (category tag : string) (key : option string)
    : St unit :=
  do s <- get_self;
  if negb (_enabled s) then ret tt else
  do end_time <- perf_counter;
  match key_pending key s with
  | Some (k, start_time) =>
      let elapsed := (end_time - start_time)%Q in
      put_self {| _data := data_append category tag elapsed (_data s);
                  _start_times := delete k (_start_times s);
                  _enabled := _enabled s |}
  | None => ret tt
  end.

Definition record_value (category tag : string) (elapsed_seconds : Q)
    : St unit :=
  do s <- get_self;
  if negb (_enabled s) then ret tt else
  put_self {| _data := data_append category tag elapsed_seconds (_data s);
              _start_times := _start_times s;
              _enabled := _enabled s |}.
End recorder.

(** ** Queries *)

(** [get_stats] returns the nested mapping when no category is asked for and
    the mapping of one category otherwise. *)
Inductive stats_result :=
  | AllCategories (result : odict (odict Stat))
  | OneCategory (result : odict Stat).

(** The inner loop of [get_stats]: [cat_result[tag] = {...}] for every
    non-empty bucket of one category. *)
Definition tag_stats (tags : odict (list Q)) : odict Stat :=
  fold_left (fun cat_result '(tag, values) =>
               match bucket_stats values with
               | Some st => od_set tag st cat_result
               | None => cat_result
               end) tags [].

(** The outer loop: [result[cat] = cat_result] for every target category
    present in the snapshot. *)
Definition category_stats (snapshot : odict (odict (list Q)))
    (target_categories : list string) : odict (odict Stat) :=
  fold_left (fun result cat =>
               match od_get cat snapshot with
               | Some tags => od_set cat (tag_stats tags) result
               | None => result
               end) target_categories [].

(** Truthiness of an optional string argument: [None] and [""] are falsy. *)
Definition truthy (category : option string) : option string :=
  match category with
  | Some c => if decide (c = "") then None else Some c
  | None => None
  end.

Definition get_stats (category : option string) (s : PerfStats) : stats_result :=
  let snapshot := _data s in
  match truthy category with
  | Some c =>
      OneCategory (default [] (od_get c (category_stats snapshot [c])))
  | None =>
      AllCategories (category_stats snapshot (od_keys snapshot))
  end.

Definition all_categories (r : stats_result) : odict (odict Stat) :=
  match r with AllCategories result => result | OneCategory _ => [] end.

(** ** The report *)

Definition report_header : string :=
  ljust 15 "Category" +:+ " | " +:+ ljust 15 "Tag" +:+ " | " +:+
  ljust 6 "Count" +:+ " | " +:+ ljust 8 "Avg(ms)" +:+ " | " +:+
  ljust 8 "Min(ms)" +:+ " | " +:+ ljust 8 "Max(ms)".

Definition report_row (cat tag : string) (stat : Stat) : string :=
  ljust 15 cat +:+ " | " +:+ ljust 15 tag +:+ " | " +:+
  ljust 6 (pretty (N.of_nat (stat_count stat))) +:+ " | " +:+
  ljust 8 (format_3f (avg_filtered stat * 1000)%Q) +:+ " | " +:+
  ljust 8 (format_3f (stat_min stat * 1000)%Q) +:+ " | " +:+
  ljust 8 (format_3f (stat_max stat * 1000)%Q).

Definition report_rows (stats : odict (odict Stat)) : list string :=
  flat_map (fun '(cat, tags) =>
              map (fun '(tag, stat) => report_row cat tag stat) tags) stats.

Definition report_lines (s : PerfStats) : list string :=
  let stats := all_categories (get_stats None s) in
  ([repeat_char "=" 80; report_header; repeat_char "-" 80]
     ++ report_rows stats ++ [repeat_char "=" 80])%list.

Definition _generate_report (s : PerfStats) : string :=
  join_lines (report_lines s).

(** ** Call sequences *)

Inductive call :=
  | Enable
  | Disable
  | Init
  | Deinit
  | StartRecord (category tag : string) (ident : N)
  | EndRecord (category tag : string) (key : option string)
  | RecordValue (category tag : string) (elapsed_seconds : Q).

Section sequences.
Variable clock : nat -> Q.
Variable float_repr : Q -> string.

(** One call; the result is the token handed back, if any. *)
Definition exec (c : call) : St (option string) :=
  match c with
  | Enable => enable;; ret None
  | Disable => disable;; ret None
  | Init => init;; ret None
  | Deinit => deinit;; ret None
  | StartRecord category tag ident =>
      start_record clock float_repr category tag ident
  | EndRecord category tag key =>
      end_record clock category tag key;; ret None
  | RecordValue category tag v => record_value category tag v;; ret None
  end.

(** A whole sequence; the result lists the tokens handed back. *)
Fixpoint run (cs : list call) : St (list string) :=
  match cs with
  | [] => ret []
  | c :: cs' =>
      do r <- exec c;
      do rs <- run cs';
      ret (match r with Some k => k :: rs | None => rs end)
  end.
End sequences.

(** ** The means as the specification words them *)







(** ** Well-formed bucket tables: keys occur once, as in a Python [dict] *)

Definition wf_data (data : odict (odict (list Q))) : Prop :=
  NoDup (od_keys data) /\
  forall cat tags, In (cat, tags) data -> NoDup (od_keys tags).

(** ** Looking a bucket up in the result of [get_stats] *)

Definition stat_in (r : stats_result) (cat tag : string) : option Stat :=
  match r with
  | AllCategories result =>
      match od_get cat result with
      | Some tags => od_get tag tags
      | None => None
      end
  | OneCategory result => od_get tag result
  end.

(** ** Concrete hosts used in examples *)

(** A clock that advances one second per reading, a clock too coarse to tell
    successive readings apart, and [repr] on floats that carry a whole number
    (below 1e16), such as ["2.0"]. *)
Definition seconds_clock (n : nat) : Q := Q_of_nat n.
Definition frozen_clock (n : nat) : Q := 0%Q.
Definition repr_whole (t : Q) : string := pretty (Qfloor t) +:+ ".0".

Definition env0 : Env := {| self := fresh; readings := 0 |}.

(** Calls that record or pair measurements. *)
Definition is_recording (c : call) : Prop :=
  match c with
  | StartRecord _ _ _ | EndRecord _ _ _ | RecordValue _ _ _ => True
  | _ => False
  end.

(** No [":"] occurs in the string. *)
Fixpoint colon_free (s : string) : bool :=
  match s with
  | "" => true
  | String c s' => negb (Ascii.eqb c ":") && colon_free s'
  end.

(** Split at the last [":"]. *)
Fixpoint rsplit (s : string) : option (string * string) :=
  match s with
  | "" => None
  | String c s' =>
      match rsplit s' with
      | Some (a, r) => Some (String c a, r)
      | None => if Ascii.eqb c ":" then Some ("", s') else None
      end
  end.

(** The thread and instant fields of a token: the last field and the one
    before the separator that precedes it. *)
Definition key_fields (key : string) : option (string * string) :=
  match rsplit key with
  | Some (a, r) =>
      match rsplit a with
      | Some (b, _) =>
          match rsplit b with
          | Some (_, i) => Some (i, r)
          | None => None
          end
      | None => None
      end
  | None => None
  end.

(** Calls whose submitted duration, if any, is not negative. *)
Definition submits_nonneg (c : call) : Prop :=
  match c with
  | RecordValue _ _ v => (0 <= v)%Q
  | _ => True
  end.

(** Every sample is non-negative and every pending start was read from the
    clock before now. *)
Definition nonneg_inv (clock : nat -> Q) (e : Env) : Prop :=
  (forall cat tag y, In y (bucket cat tag (self e)) -> (0 <= y)%Q)
  /\ (forall k t0, _start_times (self e) !! k = Some t0 ->
        exists n, (n < readings e)%nat /\ t0 = clock n).

(** [sub in s] on Python strings. *)
Definition contains (s sub : string) : Prop :=
  exists pre post, s = pre +:+ sub +:+ post.

(** ** Threads running [PerfTimer] blocks

    Each worker runs [with PerfTimer(category, tag): ...] a number of times.
    Between two accesses to the shared recorder a thread may be preempted, so
    [start_record] and [end_record] are cut where the source leaves and takes
    the lock: building the key (one clock reading), the locked store (a
    second reading), the reading of [end_time], and the locked pop and
    append.  A schedule picks the thread that moves next. *)

Inductive pc :=
  | Idle (todo : nat)
  | Keyed (todo : nat) (key : string)
  | Inside (todo : nat) (key : option string)
  | Ending (todo : nat) (key : option string) (end_time : Q).

Record thread := { thread_ident : N; thread_pc : pc }.

Record config := { c_env : Env; c_pool : list thread }.

(** Blocks still to be completed by a thread, the current one included. *)
Definition blocks_left (p : pc) : nat :=
  match p with
  | Idle todo => todo
  | Keyed todo _ | Inside todo _ | Ending todo _ _ => S todo
  end.

Fixpoint total_left (pool : list thread) : nat :=
  match pool with
  | [] => 0
  | th :: pool' => blocks_left (thread_pc th) + total_left pool'
  end.

Definition finished (th : thread) : Prop := thread_pc th = Idle 0.

(** Steps a thread still has to take when the recorder stays enabled. *)
Definition steps_left (p : pc) : nat :=
  match p with
  | Idle todo => 4 * todo
  | Keyed todo _ => 4 * todo + 3
  | Inside todo _ => 4 * todo + 2
  | Ending todo _ _ => 4 * todo + 1
  end.

Definition spawn (idents : list N) (blocks : nat) : list thread :=
  (fun i => {| thread_ident := i; thread_pc := Idle blocks |}) <$> idents.

Section timers.
Variable clock : nat -> Q.
Variable float_repr : Q -> string.
Variables category tag : string.

(** One move of the thread [i]. *)
Definition timer_step (i : N) (p : pc) : St pc :=
  match p with
  | Idle O => ret (Idle O)
  | Idle (S todo) =>
      (* __enter__: start_record up to the lock *)
      do s <- get_self;
      if negb (_enabled s) then ret (Inside todo None) else
      do t <- perf_counter clock;
      ret (Keyed todo (make_key float_repr category tag i t))
  | Keyed todo key =>
      (* start_record under the lock *)
      do t' <- perf_counter clock;
      do s <- get_self;
      put_self {| _data := _data s;
                  _start_times := <[key := t']> (_start_times s);
                  _enabled := _enabled s |};;
      ret (Inside todo (Some key))
  | Inside todo key =>
      (* __exit__: end_record up to the lock *)
      do s <- get_self;
      if negb (_enabled s) then ret (Idle todo) else
      do end_time <- perf_counter clock;
      ret (Ending todo key end_time)
  | Ending todo key end_time =>
      (* end_record under the lock *)
      do s <- get_self;
      match key_pending key s with
      | Some (k, start_time) =>
          let elapsed := (end_time - start_time)%Q in
          put_self {| _data := data_append category tag elapsed (_data s);
                      _start_times := delete k (_start_times s);
                      _enabled := _enabled s |};;
          ret (Idle todo)
      | None => ret (Idle todo)
      end
  end.

(** The scheduler lets thread number [j] move; a number that names no
    thread changes nothing. *)
Definition sched_step (c : config) (j : nat) : config :=
  match c_pool c !! j with
  | Some th =>
      let '(p', e') := timer_step (thread_ident th) (thread_pc th) (c_env c) in
      {| c_env := e';
         c_pool := <[j := {| thread_ident := thread_ident th;
                             thread_pc := p' |}]> (c_pool c) |}
  | None => c
  end.

Definition run_schedule (schedule : list nat) (c : config) : config :=
  fold_left sched_step schedule c.
End timers.

(** The token carries the identifier of thread [i]. *)
Definition owner (i : N) (k : string) : Prop :=
  exists r, key_fields k = Some (pretty i, r).

(** What a thread at [p] relies on: the token it holds is its own and, once
    stored, pending. *)
Definition holds (st : gmap string Q) (i : N) (p : pc) : Prop :=
  match p with
  | Idle _ => True
  | Keyed _ k => owner i k
  | Inside _ ko | Ending _ ko _ =>
      exists k, ko = Some k /\ owner i k /\ is_Some (st !! k)
  end.

Definition timers_inv (c : config) : Prop :=
  _enabled (self (c_env c)) = true
  /\ (forall j1 j2 th1 th2,
        c_pool c !! j1 = Some th1 -> c_pool c !! j2 = Some th2 ->
        thread_ident th1 = thread_ident th2 -> j1 = j2)
  /\ (forall j th, c_pool c !! j = Some th ->
        holds (_start_times (self (c_env c))) (thread_ident th) (thread_pc th)).

(** Samples in the bucket the timers write to. *)
Definition count_of (category tag : string) (c : config) : nat :=
  length (bucket category tag (self (c_env c))).

(** ** The scoped timer [PerfTimer]

    The manager of a timer is the instance the state transformer runs on;
    [PerfTimer.__init__] only stores the labels and an empty key. *)

(** How a block ends: it returns a value or raises. *)
Inductive outcome (A : Type) :=
  | Returned (a : A)
  | Raised (exc : string).
Arguments Returned {A} a.
Arguments Raised {A} exc.

Module PerfTimer.
Record t := { category : string; tag : string; key : option string }.

Definition __init__ (category tag : string) : t :=
  {| category := category; tag := tag; key := None |}.

Section methods.
Variable clock : nat -> Q.
Variable float_repr : Q -> string.

(** [self.key = self.mgr.start_record(self.category, self.tag)], called by
    the thread [ident]. *)
Definition __enter__ (ident : N) (tm : t) : St t :=
  do k <- start_record clock float_repr (category tm) (tag tm) ident;
  ret {| category := category tm; tag := tag tm; key := k |}.

(** [self.mgr.end_record(self.category, self.tag, self.key)]; the result is
    [None], so an exception of the block is not swallowed. *)
Definition __exit__ (tm : t) : St unit :=
  end_record clock (category tm) (tag tm) (key tm).
End methods.
End PerfTimer.

Section with_statement.
Variable clock : nat -> Q.
Variable float_repr : Q -> string.

(** [with PerfTimer(category, tag): body] run by the thread [ident]:
    [__exit__] runs however the body ends, and the outcome of the body is
    the outcome of the statement. *)
Definition with_timer {A} (category tag : string) (ident : N)
    (body : St (outcome A)) : St (outcome A) :=
  do tm <- PerfTimer.__enter__ clock float_repr ident
             (PerfTimer.__init__ category tag);
  do r <- body;
  PerfTimer.__exit__ clock tm;;
  ret r.
End with_statement.

(** ** The singleton

    [PerfStats._instance] holds the address of the one instance; an object
    is [Raw] between [__new__] and its first [__init__]. *)

Inductive obj :=
  | Raw
  | Ready (s : PerfStats).

Record Heap := {
  objects : gmap nat obj;
  next_address : nat;
  cls_instance : option nat
}.

Definition empty_heap : Heap :=
  {| objects := ∅; next_address := 0; cls_instance := None |}.

(** [__new__]: allocate the instance on first use, with
    [_initialized = False]. *)
Definition __new__ (h : Heap) : nat * Heap :=
  match cls_instance h with
  | Some a => (a, h)
  | None =>
      let a := next_address h in
      (a, {| objects := <[a := Raw]> (objects h);
             next_address := S a;
             cls_instance := Some a |})
  end.

(** [__init__]: returns at once on an initialised instance. *)
Definition __init__ (o : obj) : obj :=
  match o with
  | Ready s => Ready s
  | Raw => Ready fresh
  end.

(** [PerfStats()]: [__new__], then [__init__] on the object it returned. *)
Definition construct (h : Heap) : nat * Heap :=
  let '(a, h1) := __new__ h in
  (a, {| objects := alter __init__ a (objects h1);
         next_address := next_address h1;
         cls_instance := cls_instance h1 |}).

Definition get_instance (h : Heap) : nat * Heap := construct h.

(** A method call on the object at [a]; [None] when there is no initialised
    object there. *)
Definition call_on {A} (a : nat) (m : St A) (w : Heap * nat)
    : option (A * (Heap * nat)) :=
  match objects w.1 !! a with
  | Some (Ready s) =>
      let '(r, e') := m {| self := s; readings := w.2 |} in
      Some (r, ({| objects := <[a := Ready (self e')]> (objects w.1);
                   next_address := next_address w.1;
                   cls_instance := cls_instance w.1 |},
                readings e'))
  | _ => None
  end.

(** [stats_mgr or PerfStats.get_instance()] in [PerfTimer.__init__]; an
    instance is always truthy. *)
Definition timer_mgr (stats_mgr : option nat) (h : Heap) : nat * Heap :=
  match stats_mgr with
  | Some a => (a, h)
  | None => get_instance h
  end.

(** The class attribute points at an object. *)
Definition heap_ok (h : Heap) : Prop :=
  forall a, cls_instance h = Some a -> is_Some (objects h !! a).

(** ** Predicates on calls and bucket tables *)

(** Calls that do not reset the recorder. *)
Definition no_reset (c : call) : Prop :=
  match c with
  | Init | Deinit => False
  | _ => True
  end.

(** Calls that neither reset the recorder nor end the token [k]. *)
Definition keeps_token (k : string) (c : call) : Prop :=
  match c with
  | Init | Deinit => False
  | EndRecord _ _ key => key <> Some k
  | _ => True
  end.

(** No bucket of the table is empty. *)
Definition no_empty_bucket (data : odict (odict (list Q))) : Prop :=
  forall cat tags tag values,
    In (cat, tags) data -> In (tag, values) tags -> values <> [].

(** The number of buckets of the table. *)
Definition bucket_count (data : odict (odict (list Q))) : nat :=
  sum_list (map (fun ct => length (snd ct)) data).

(** Reading the category and the tag back from a token: strip the instant,
    the thread identifier and their separators from the right, then split at
    the last separator that is left. *)
Definition key_labels (key : string) : option (string * string) :=
  '(a1, _) ← rsplit key;
  '(a2, _) ← rsplit a1;
  '(a3, _) ← rsplit a2;
  '(a4, _) ← rsplit a3;
  '(a5, g) ← rsplit a4;
  '(c, _) ← rsplit a5;
  Some (c, g).

(** The token a thread holds inside its block. *)
Definition held (p : pc) : option string :=
  match p with
  | Inside _ key | Ending _ key _ => key
  | _ => None
  end.

(** Every pending start is the token some thread holds. *)
Definition pending_held (c : config) : Prop :=
  forall k, is_Some (_start_times (self (c_env c)) !! k) ->
    exists j th, c_pool c !! j = Some th /\ held (thread_pc th) = Some k.

(** The widths of the columns of a report row and the width of a row whose
    fields all fit: six columns and five separators of three characters. *)
Definition column_widths : list nat := [15; 15; 6; 8; 8; 8]%nat.
Definition row_width : nat := (sum_list column_widths + 5 * 3)%nat.

(** The fields of a row before padding. *)
Definition row_fields (cat tag : string) (stat : Stat) : list string :=
  [cat; tag; pretty (N.of_nat (stat_count stat));
   format_3f (avg_filtered stat * 1000)%Q;
   format_3f (stat_min stat * 1000)%Q;
   format_3f (stat_max stat * 1000)%Q].

(** * The aggregation in binary64

    [get_stats] computes on Python floats.  This second embedding of its
    loops does every operation in IEEE 754 binary64, as the interpreter
    does: [min] and [max] compare with float [<], [sum] starts from 0 and
    adds from the left rounding after every addition (the float path of the
    built-in up to CPython 3.11), [count] and [count - 2] are converted to
    floats by the two divisions. *)

Module Binary64.

Record Stat := {
  stat_count : nat;
  stat_min : float;
  stat_max : float;
  avg_filtered : float;
  avg_raw : float
}.

(** [min(values)], [max(values)]: the running extremum changes only when
    [y < m] (resp. [m < y]) holds as floats, so a NaN never replaces it. *)
Definition py_min (x : float) (xs : list float) : float :=
  fold_left (fun m y => if (y <? m)%float then y else m) xs x.

Definition py_max (x : float) (xs : list float) : float :=
  fold_left (fun m y => if (m <? y)%float then y else m) xs x.

(** [sum(values)]. *)
Definition py_sum (values : list float) : float :=
  fold_left PrimFloat.add values 0%float.

(** [sum(values)] as CPython 3.12 and later compute it: the same additions,
    with the rounding errors collected in [c] and added at the end. *)
Definition py_sum_compensated (values : list float) : float :=
  let '(f_result, c) :=
    fold_left (fun '(f_result, c) x =>
                 let t := (f_result + x)%float in
                 if (abs x <=? abs f_result)%float
                 then (t, (c + ((f_result - t) + x))%float)
                 else (t, (c + ((x - t) + f_result))%float))
              values (0%float, 0%float) in
  if negb (c =? 0)%float && negb (is_nan c || is_infinity c)
  then (f_result + c)%float else f_result.

(** The conversion of an [int] operand of [/] to a float (exact below 2^53;
    the list lengths that occur are below 2^63). *)
Definition float_of_nat (n : nat) : float :=
  PrimFloat.of_uint63 (Uint63.of_Z (Z.of_nat n)).

(** The body of the inner loop of [get_stats]; [None] is the [continue]
    taken on an empty bucket. *)
Definition bucket_stats (values : list float) : option Stat :=
  match values with
  | [] => None
  | x :: xs =>
      let count := length values in
      let min_val := py_min x xs in
      let max_val := py_max x xs in
      let total := py_sum values in
      let avg_val :=
        if (2 <? count)%nat
        then ((total - min_val - max_val) / float_of_nat (count - 2))%float
        else (total / float_of_nat count)%float in
      Some {| stat_count := count;
              stat_min := min_val;
              stat_max := max_val;
              avg_filtered := avg_val;
              avg_raw := (total / float_of_nat count)%float |}
  end.

Inductive stats_result :=
  | AllCategories (result : odict (odict Stat))
  | OneCategory (result : odict Stat).

Definition tag_stats (tags : odict (list float)) : odict Stat :=
  fold_left (fun cat_result '(tag, values) =>
               match bucket_stats values with
               | Some st => od_set tag st cat_result
               | None => cat_result
               end) tags [].

Definition category_stats (snapshot : odict (odict (list float)))
    (target_categories : list string) : odict (odict Stat) :=
  fold_left (fun result cat =>
               match od_get cat snapshot with
               | Some tags => od_set cat (tag_stats tags) result
               | None => result
               end) target_categories [].

(** [get_stats] on the bucket table [self._data]. *)
Definition get_stats (category : option string)
    (_data : odict (odict (list float))) : stats_result :=
  let snapshot := _data in
  match truthy category with
  | Some c =>
      OneCategory (default [] (od_get c (category_stats snapshot [c])))
  | None =>
      AllCategories (category_stats snapshot (od_keys snapshot))
  end.

(** [self._data[category][tag].append(x)], as [record_value] does it. *)
Definition data_append (category tag : string) (x : float)
    (data : odict (odict (list float))) : odict (odict (list float)) :=
  let inner := default [] (od_get category data) in
  let bucket := default [] (od_get tag inner) in
  od_set category (od_set tag (bucket ++ [x])%list inner) data.

Definition bucket (category tag : string)
    (data : odict (odict (list float))) : list float :=
  default [] (od_get tag (default [] (od_get category data))).

Definition stat_in (r : stats_result) (cat tag : string) : option Stat :=
  match r with
  | AllCategories result =>
      match od_get cat result with
      | Some tags => od_get tag tags
      | None => None
      end
  | OneCategory result => od_get tag result
  end.

Definition wf_data (data : odict (odict (list float))) : Prop :=
  NoDup (od_keys data) /\
  forall cat tags, In (cat, tags) data -> NoDup (od_keys tags).

End Binary64.

(** ** The exact value of a float *)

(** The value of a finite binary64 number is [m * 2^e] with [e >= -1074]; it
    is kept as the integer [value * 2^1074].  Infinities and NaN have none. *)
Definition SFscaled (x : spec_float) : Z :=
  match x with
  | S754_finite s m e =>
      let v := (Z.pos m * 2 ^ (e + 1074))%Z in if s then (- v)%Z else v
  | _ => 0%Z
  end.

Definition SFfinite (x : spec_float) : bool :=
  match x with
  | S754_zero _ | S754_finite _ _ _ => true
  | _ => false
  end.

Definition finite (x : float) : bool := SFfinite (Prim2SF x).
Definition scaled (x : float) : Z := SFscaled (Prim2SF x).
Definition Q_of_float (x : float) : Q := Qmake (scaled x) (2 ^ 1074).

(** [r] is finite and its value is exactly [q]. *)
Definition exact (r : float) (q : Q) : bool :=
  finite r && Qeq_bool (Q_of_float r) q.




(** * Properties *)

(** ** Ordered dictionaries *)

Section odict_facts.
Context {V : Type}.
Implicit Types (d : odict V) (k : string) (v : V).

Lemma od_get_set_eq k v d : od_get k (od_set k v d) = Some v.
Proof.
  induction d as [|[k' v'] d IH]; simpl.
  - by rewrite decide_True.
  - destruct (decide (k = k')) as [->|Hne]; simpl.
    + by rewrite decide_True.
    + by rewrite decide_False.
Qed.

Lemma od_get_set_ne k k' v d : k ≠ k' -> od_get k' (od_set k v d) = od_get k' d.
Proof.
  intros Hne. induction d as [|[k0 v0] d IH]; simpl.
  - rewrite decide_False; [done | congruence].
  - destruct (decide (k = k0)) as [->|Hne0]; simpl.
    + rewrite !decide_False; [done | congruence | congruence].
    + destruct (decide (k' = k0)); [done | apply IH].
Qed.

Lemma od_get_Some_In k v d : od_get k d = Some v -> In (k, v) d.
Proof.
  induction d as [|[k' v'] d IH]; simpl; [done|].
  destruct (decide (k = k')) as [->|Hne].
  - intros [= ->]. by left.
  - intros H. right. by apply IH.
Qed.

Lemma od_get_None_keys k d : od_get k d = None -> ~ In k (od_keys d).
Proof.
  induction d as [|[k' v'] d IH]; simpl; [tauto|].
  destruct (decide (k = k')) as [->|Hne]; [done|].
  intros H [Heq|Hin]; [congruence | by apply IH].
Qed.

Lemma od_get_In_NoDup k v d :
  NoDup (od_keys d) -> In (k, v) d -> od_get k d = Some v.
Proof.
  induction d as [|[k' v'] d IH]; simpl; [done|].
  intros Hnd [Heq|Hin].
  - injection Heq as -> ->. by rewrite decide_True.
  - apply NoDup_cons in Hnd as [Hk' Hnd].
    destruct (decide (k = k')) as [->|Hne]; [|by apply IH].
    exfalso. apply Hk'. apply list_elem_of_In.
    change k' with (fst (k', v)). by apply in_map.
Qed.

Lemma od_keys_set k v d :
  od_keys (od_set k v d)
  = match od_get k d with
    | Some _ => od_keys d
    | None => (od_keys d ++ [k])%list
    end.
Proof.
  induction d as [|[k' v'] d IH]; simpl; [done|].
  destruct (decide (k = k')) as [->|Hne]; simpl; [done|].
  rewrite IH. by destruct (od_get k d).
Qed.

Lemma od_set_NoDup k v d : NoDup (od_keys d) -> NoDup (od_keys (od_set k v d)).
Proof.
  intros Hnd. rewrite od_keys_set.
  destruct (od_get k d) eqn:Hg; [done|].
  apply NoDup_app. split; [done|]. split; [|apply NoDup_singleton].
  intros x Hx Hx'. apply list_elem_of_In in Hx.
  apply list_elem_of_singleton in Hx' as ->.
  by apply od_get_None_keys in Hg.
Qed.
End odict_facts.

(** ** Sums, extrema and means of samples *)

Section samples.
Local Open Scope Q_scope.
Implicit Types (x y m a b : Q) (l xs : list Q).













End samples.

(** ** What [bucket_stats] computes *)

Section bucket_stats_facts.
Local Open Scope Q_scope.

Lemma bucket_stats_Some values :
  values <> [] -> exists st, bucket_stats values = Some st.
Proof. destruct values; [done | eauto]. Qed.


Lemma bucket_stats_count values st :
  bucket_stats values = Some st -> stat_count st = length values.
Proof. destruct values; [done|]. by intros [= <-]. Qed.







End bucket_stats_facts.

(** ** Well-formed bucket tables *)

Lemma od_set_In {V} (k k0 : string) (v v0 : V) (d : odict V) :
  In (k0, v0) (od_set k v d) -> (k0 = k /\ v0 = v) \/ In (k0, v0) d.
Proof.
  induction d as [|[k' v'] d IH]; simpl.
  - intros [[= <- <-]|[]]. by left.
  - destruct (decide (k = k')) as [->|Hne]; simpl.
    + intros [[= <- <-]|Hin]; [by left | right; by right].
    + intros [Heq|Hin]; [right; by left|].
      destruct (IH Hin) as [?|?]; [by left | right; by right].
Qed.

Lemma wf_data_nil : wf_data [].
Proof. split; [constructor | intros ? ? []]. Qed.

Lemma wf_data_append category tag x data :
  wf_data data -> wf_data (data_append category tag x data).
Proof.
  intros [Hnd Hin]. unfold data_append. split.
  - by apply od_set_NoDup.
  - intros cat tags H. apply od_set_In in H as [[-> ->]|H]; [|by eapply Hin].
    apply od_set_NoDup.
    destruct (od_get category data) as [inner|] eqn:Hg; simpl; [|constructor].
    eapply Hin. by apply od_get_Some_In.
Qed.

Lemma wf_data_tags data cat tags :
  wf_data data -> od_get cat data = Some tags -> NoDup (od_keys tags).
Proof. intros [_ Hin] Hg. eapply Hin. by apply od_get_Some_In. Qed.

(** ** The result of [get_stats], bucket by bucket *)

Lemma od_get_not_key {V} (k : string) (d : odict V) :
  ~ In k (od_keys d) -> od_get k d = None.
Proof.
  induction d as [|[k' v'] d IH]; simpl; [done|].
  intros Hn. destruct (decide (k = k')) as [->|Hne]; [tauto|]. apply IH. tauto.
Qed.

Lemma od_get_Some_key {V} (k : string) (v : V) (d : odict V) :
  od_get k d = Some v -> In k (od_keys d).
Proof.
  intros H. apply od_get_Some_In in H.
  change k with (fst (k, v)). by apply in_map.
Qed.

Lemma tag_stats_fold tag (tags : odict (list Q)) (acc : odict Stat) :
  NoDup (od_keys tags) ->
  od_get tag
    (fold_left (fun cat_result '(tag, values) =>
                  match bucket_stats values with
                  | Some st => od_set tag st cat_result
                  | None => cat_result
                  end) tags acc)
  = match od_get tag tags ≫= bucket_stats with
    | Some st => Some st
    | None => od_get tag acc
    end.
Proof.
  revert acc. induction tags as [|[k values] tags IH]; intros acc Hnd; [done|].
  simpl in Hnd. apply NoDup_cons in Hnd as [Hk Hnd].
  cbn [fold_left od_get]. rewrite (IH _ Hnd).
  destruct (decide (tag = k)) as [->|Hne].
  - rewrite od_get_not_key by (by rewrite <- list_elem_of_In). simpl.
    destruct (bucket_stats values); [apply od_get_set_eq | done].
  - destruct (od_get tag tags ≫= bucket_stats); [done|].
    destruct (bucket_stats values); [|done].
    apply od_get_set_ne. congruence.
Qed.

Lemma tag_stats_get tag (tags : odict (list Q)) :
  NoDup (od_keys tags) ->
  od_get tag (tag_stats tags) = od_get tag tags ≫= bucket_stats.
Proof.
  intros Hnd. unfold tag_stats. rewrite tag_stats_fold by done.
  by destruct (od_get tag tags ≫= bucket_stats).
Qed.

Lemma category_stats_fold snapshot (targets : list string) c
    (acc : odict (odict Stat)) :
  od_get c
    (fold_left (fun result cat =>
                  match od_get cat snapshot with
                  | Some tags => od_set cat (tag_stats tags) result
                  | None => result
                  end) targets acc)
  = match od_get c snapshot with
    | Some tags => if decide (c ∈ targets) then Some (tag_stats tags)
                   else od_get c acc
    | None => od_get c acc
    end.
Proof.
  revert acc. induction targets as [|t targets IH]; intros acc.
  - simpl. by destruct (od_get c snapshot).
  - cbn [fold_left]. rewrite IH.
    destruct (od_get c snapshot) as [tags|] eqn:Hc.
    + destruct (decide (c ∈ targets)) as [Hin|Hnin].
      * rewrite decide_True; [done | by right].
      * destruct (decide (c = t)) as [->|Hne].
        -- rewrite decide_True by (by left). rewrite Hc. apply od_get_set_eq.
        -- rewrite decide_False by (by intros [?|?]%elem_of_cons).
           destruct (od_get t snapshot); [|done].
           apply od_get_set_ne. congruence.
    + destruct (od_get t snapshot) eqn:Ht; [|done].
      apply od_get_set_ne. congruence.
Qed.

Lemma category_stats_get snapshot (targets : list string) c :
  od_get c (category_stats snapshot targets)
  = if decide (c ∈ targets) then tag_stats <$> od_get c snapshot else None.
Proof.
  unfold category_stats. rewrite category_stats_fold. simpl.
  destruct (od_get c snapshot); simpl; by destruct (decide (c ∈ targets)).
Qed.

(** Both forms of the query report [bucket_stats] of the bucket. *)
Lemma get_stats_all s cat tag :
  wf_data (_data s) ->
  stat_in (get_stats None s) cat tag = bucket_stats (bucket cat tag s).
Proof.
  intros Hwf. unfold get_stats, stat_in, bucket. simpl.
  rewrite category_stats_get.
  destruct (od_get cat (_data s)) as [tags|] eqn:Hc; simpl.
  - rewrite decide_True by (apply list_elem_of_In; by eapply od_get_Some_key).
    simpl. rewrite tag_stats_get by (by eapply wf_data_tags).
    by destruct (od_get tag tags).
  - by destruct (decide (cat ∈ od_keys (_data s))).
Qed.

Lemma get_stats_one s cat tag :
  wf_data (_data s) -> cat <> "" ->
  stat_in (get_stats (Some cat) s) cat tag = bucket_stats (bucket cat tag s).
Proof.
  intros Hwf Hcat. unfold get_stats, stat_in, bucket. simpl.
  rewrite decide_False by done.
  rewrite category_stats_get. rewrite decide_True by (by left).
  destruct (od_get cat (_data s)) as [tags|] eqn:Hc; simpl; [|done].
  rewrite tag_stats_get by (by eapply wf_data_tags).
  by destruct (od_get tag tags).
Qed.

(** ** The methods, one equation per path *)

Ltac unfold_st :=
  unfold start_record, end_record, record_value, enable, disable, deinit, init,
    bind, ret, get_self, put_self, perf_counter.

Section method_equations.
Variable clock : nat -> Q.
Variable float_repr : Q -> string.

Lemma start_record_disabled category tag ident e :
  _enabled (self e) = false ->
  start_record clock float_repr category tag ident e = (None, e).
Proof. intros H. unfold_st. by rewrite H. Qed.

Lemma start_record_enabled category tag ident e :
  _enabled (self e) = true ->
  start_record clock float_repr category tag ident e
  = (Some (make_key float_repr category tag ident (clock (readings e))),
     {| self := {| _data := _data (self e);
                   _start_times :=
                     <[make_key float_repr category tag ident
                         (clock (readings e))
                       := clock (S (readings e))]> (_start_times (self e));
                   _enabled := true |};
        readings := S (S (readings e)) |}).
Proof. intros H. unfold_st. by rewrite H. Qed.

Lemma end_record_disabled category tag key e :
  _enabled (self e) = false -> end_record clock category tag key e = (tt, e).
Proof. intros H. unfold_st. by rewrite H. Qed.

Lemma end_record_hit category tag key k start_time e :
  _enabled (self e) = true ->
  key_pending key (self e) = Some (k, start_time) ->
  end_record clock category tag key e
  = (tt, {| self := {| _data := data_append category tag
                                  (clock (readings e) - start_time)%Q
                                  (_data (self e));
                       _start_times := delete k (_start_times (self e));
                       _enabled := true |};
            readings := S (readings e) |}).
Proof. intros H Hk. unfold_st. rewrite H. simpl. by rewrite Hk. Qed.

Lemma end_record_miss category tag key e :
  _enabled (self e) = true ->
  key_pending key (self e) = None ->
  end_record clock category tag key e
  = (tt, {| self := self e; readings := S (readings e) |}).
Proof. intros H Hk. unfold_st. rewrite H. simpl. by rewrite Hk. Qed.

Lemma record_value_disabled category tag v e :
  _enabled (self e) = false -> record_value category tag v e = (tt, e).
Proof. intros H. unfold_st. by rewrite H. Qed.

Lemma record_value_enabled category tag v e :
  _enabled (self e) = true ->
  record_value category tag v e
  = (tt, {| self := {| _data := data_append category tag v (_data (self e));
                       _start_times := _start_times (self e);
                       _enabled := true |};
            readings := readings e |}).
Proof. intros H. unfold_st. by rewrite H. Qed.

Lemma key_pending_Some key s k start_time :
  key_pending key s = Some (k, start_time) <->
  key = Some k /\ k <> "" /\ _start_times s !! k = Some start_time.
Proof.
  unfold key_pending. destruct key as [k'|]; [|split; [done | by intros [? _]]].
  destruct (decide (k' = "")) as [->|Hne].
  - split; [done | intros ([= <-] & ? & _); done].
  - destruct (_start_times s !! k') as [t0|] eqn:Hl; split.
    + by intros [= <- <-].
    + intros ([= <-] & _ & H). rewrite Hl in H. by injection H as <-.
    + done.
    + intros ([= <-] & _ & H). by rewrite Hl in H.
Qed.

Lemma key_pending_None key s :
  key_pending key s = None <->
  key = None \/ key = Some "" \/
  exists k, key = Some k /\ _start_times s !! k = None.
Proof.
  unfold key_pending. destruct key as [k|]; [|split; [by left | done]].
  destruct (decide (k = "")) as [->|Hne].
  - split; [intros _; right; by left | done].
  - destruct (_start_times s !! k) as [t0|] eqn:Hl; split.
    + done.
    + intros [?|[[= ?]|(k' & [= <-] & H)]]; [done | done | by rewrite Hl in H].
    + intros _. right. right. by exists k.
    + done.
Qed.
End method_equations.

(** ** Buckets under [data_append] *)

Lemma bucket_append_same category tag x s s' :
  _data s' = data_append category tag x (_data s) ->
  bucket category tag s' = (bucket category tag s ++ [x])%list.
Proof.
  intros Hd. unfold bucket. rewrite Hd. unfold data_append.
  by rewrite od_get_set_eq; simpl; rewrite od_get_set_eq.
Qed.

Lemma bucket_append_other category tag x s s' cat' tag' :
  _data s' = data_append category tag x (_data s) ->
  (cat', tag') <> (category, tag) ->
  bucket cat' tag' s' = bucket cat' tag' s.
Proof.
  intros Hd Hne. unfold bucket. rewrite Hd. unfold data_append.
  destruct (decide (category = cat')) as [<-|Hc].
  - rewrite od_get_set_eq. simpl.
    rewrite od_get_set_ne by congruence. done.
  - by rewrite od_get_set_ne.
Qed.

(** ** Pending starts along a call sequence *)

Section pending.
Variable clock : nat -> Q.
Variable float_repr : Q -> string.

Lemma exec_pending c e k :
  _start_times (self e) !! k = None ->
  (exec clock float_repr c e).1 <> Some k ->
  _start_times (self (exec clock float_repr c e).2) !! k = None.
Proof.
  intros Hk Hret. destruct c as [| | | |category tag ident|category tag key|category tag v];
    simpl in *; try done.
  - destruct (_enabled (self e)) eqn:Hen.
    + rewrite start_record_enabled in * by done. simpl in *.
      rewrite lookup_insert_ne; [done | congruence].
    + by rewrite start_record_disabled.
  - unfold bind at 1. unfold ret.
    destruct (end_record clock category tag key e) as [[] e'] eqn:He. simpl.
    destruct (_enabled (self e)) eqn:Hen.
    + destruct (key_pending key (self e)) as [[k' t0]|] eqn:Hp.
      * rewrite (end_record_hit _ _ _ _ _ _ _ Hen Hp) in He.
        injection He as <-. simpl.
        destruct (decide (k' = k)) as [->|Hne];
          [apply lookup_delete_eq | by rewrite lookup_delete_ne].
      * rewrite (end_record_miss _ _ _ _ _ Hen Hp) in He. by injection He as <-.
    + rewrite end_record_disabled in He by done. by injection He as <-.
  - unfold bind at 1. unfold ret.
    destruct (record_value category tag v e) as [[] e'] eqn:He. simpl.
    destruct (_enabled (self e)) eqn:Hen.
    + rewrite record_value_enabled in He by done. by injection He as <-.
    + rewrite record_value_disabled in He by done. by injection He as <-.
Qed.

Lemma run_cons c cs e :
  run clock float_repr (c :: cs) e
  = (match (exec clock float_repr c e).1 with
     | Some k => k :: (run clock float_repr cs (exec clock float_repr c e).2).1
     | None => (run clock float_repr cs (exec clock float_repr c e).2).1
     end,
     (run clock float_repr cs (exec clock float_repr c e).2).2).
Proof.
  cbn [run]. unfold bind, ret.
  destruct (exec clock float_repr c e) as [r e']. simpl.
  by destruct (run clock float_repr cs e') as [rs e''], r.
Qed.

(** A token is pending only if some [start_record] of the sequence handed
    it back, or it was pending before. *)
Lemma run_pending cs e k :
  _start_times (self e) !! k = None ->
  k ∉ (run clock float_repr cs e).1 ->
  _start_times (self (run clock float_repr cs e).2) !! k = None.
Proof.
  revert e. induction cs as [|c cs IH]; intros e Hk Hret; [done|].
  rewrite run_cons in *. simpl in *.
  apply IH.
  - apply exec_pending; [done|].
    intros Heq. rewrite Heq in Hret. apply Hret. by left.
  - intros Hin. apply Hret.
    destruct (exec clock float_repr c e).1; [by right | done].
Qed.

Lemma exec_disabled c e :
  is_recording c -> _enabled (self e) = false ->
  exec clock float_repr c e = (None, e).
Proof.
  intros Hc Hen. destruct c; simpl in Hc; try done; simpl.
  - by apply start_record_disabled.
  - unfold bind, ret. by rewrite end_record_disabled.
  - unfold bind, ret. by rewrite record_value_disabled.
Qed.

Lemma run_disabled cs e :
  Forall is_recording cs -> _enabled (self e) = false ->
  run clock float_repr cs e = ([], e).
Proof.
  intros Hcs Hen. induction Hcs as [|c cs Hc _ IH]; [done|].
  rewrite run_cons, exec_disabled by done. simpl. by rewrite IH.
Qed.
End pending.

(** ** Claims about the pairing protocol and the enabled flag *)

Section protocol_claims.
Variable clock : nat -> Q.
Variable float_repr : Q -> string.

Lemma make_key_nonempty category tag ident t :
  make_key float_repr category tag ident t <> "".
Proof. unfold make_key. by destruct category. Qed.

(** C2 (as the code has it). While the recorder is enabled, [end_record]
    looks only the token up: called with the token of a pending
    [start_record], it consumes the token and appends the elapsed time to
    the bucket of the category and tag given to [end_record], whatever
    category and tag the token was started with, and changes no other
    bucket. *)
Theorem end_record_uses_caller_labels e category' tag' ident category tag :
  _enabled (self e) = true ->
  let r1 := start_record clock float_repr category' tag' ident e in
  let e2 := (end_record clock category tag r1.1 r1.2).2 in
  r1.1 = Some (make_key float_repr category' tag' ident (clock (readings e)))
  /\ bucket category tag (self e2)
     = (bucket category tag (self r1.2)
          ++ [(clock (readings r1.2) - clock (S (readings e)))%Q])%list
  /\ (forall k, r1.1 = Some k -> _start_times (self e2) !! k = None)
  /\ (forall cat'' tag'', (cat'', tag'') <> (category, tag) ->
        bucket cat'' tag'' (self e2) = bucket cat'' tag'' (self r1.2)).
Proof.
  intros Hen. cbv zeta. rewrite start_record_enabled by done. simpl.
  set (key := make_key float_repr category' tag' ident (clock (readings e))).
  match goal with
  | |- context [end_record _ _ _ _ ?e1] =>
      assert (Hp : key_pending (Some key) (self e1)
                   = Some (key, clock (S (readings e))))
  end.
  { apply key_pending_Some. split; [done|]. split.
    - apply make_key_nonempty.
    - simpl. apply lookup_insert_eq. }
  erewrite end_record_hit; [| reflexivity | exact Hp].
  simpl. split; [done|]. split; [by eapply bucket_append_same|]. split.
  - intros k [= <-]. apply lookup_delete_eq.
  - intros cat'' tag'' Hne. by eapply bucket_append_other.
Qed.

(** X19. A token is consumed by the [end_record] call that records its
    sample; afterwards, and for as long as no [start_record] hands the same
    token back, an [end_record] with that token changes nothing.  The same
    holds for a token that no [start_record] handed back, and for a missing
    token. *)
Theorem end_record_consumes_once :
  (forall e category tag k,
      let e' := (end_record clock category tag (Some k) e).2 in
      _data (self e') <> _data (self e) ->
      (exists start_time,
          _start_times (self e) !! k = Some start_time
          /\ bucket category tag (self e')
             = (bucket category tag (self e)
                  ++ [(clock (readings e) - start_time)%Q])%list)
      /\ _start_times (self e') !! k = None)
  /\ (forall e cs k category tag,
        _start_times (self e) !! k = None ->
        k ∉ (run clock float_repr cs e).1 ->
        let e' := (run clock float_repr cs e).2 in
        self (end_record clock category tag (Some k) e').2 = self e')
  /\ (forall cs k category tag,
        k ∉ (run clock float_repr cs env0).1 ->
        let e' := (run clock float_repr cs env0).2 in
        self (end_record clock category tag (Some k) e').2 = self e')
  /\ (forall e category tag,
        self (end_record clock category tag None e).2 = self e).
Proof.
  assert (Hmiss : forall e key category tag,
             key_pending key (self e) = None ->
             self (end_record clock category tag key e).2 = self e).
  { intros e key category tag Hp. destruct (_enabled (self e)) eqn:Hen.
    - by rewrite end_record_miss.
    - by rewrite end_record_disabled. }
  assert (Hseq : forall e cs k category tag,
             _start_times (self e) !! k = None ->
             k ∉ (run clock float_repr cs e).1 ->
             let e' := (run clock float_repr cs e).2 in
             self (end_record clock category tag (Some k) e').2 = self e').
  { intros e cs k category tag Hk Hret e'. apply Hmiss.
    apply key_pending_None. right. right. exists k. split; [done|].
    by apply run_pending. }
  split; [|split; [exact Hseq | split]].
  - intros e category tag k e' Hchg. subst e'.
    destruct (_enabled (self e)) eqn:Hen.
    + destruct (key_pending (Some k) (self e)) as [[k' t0]|] eqn:Hp.
      * rewrite (end_record_hit _ _ _ _ _ _ _ Hen Hp) in *. simpl.
        apply key_pending_Some in Hp as ([= <-] & _ & Hk).
        split; [|apply lookup_delete_eq].
        exists t0. split; [done|]. by eapply bucket_append_same.
      * rewrite (end_record_miss _ _ _ _ _ Hen Hp) in Hchg. by destruct Hchg.
    + rewrite end_record_disabled in Hchg by done. by destruct Hchg.
  - intros cs k category tag Hret. by apply Hseq.
  - intros e category tag. by apply Hmiss.
Qed.

(** C5. While the recorder is disabled, [start_record] hands back no
    token and [start_record], [end_record] and [record_value], alone or in
    any sequence, leave the recorder exactly as it was, without reading the
    clock; [enable] and [disable] set the flag and keep every bucket and
    every pending start. *)
Theorem disabled_calls_are_inert e :
  (_enabled (self e) = false ->
     (forall category tag ident,
         start_record clock float_repr category tag ident e = (None, e))
     /\ (forall category tag key,
           end_record clock category tag key e = (tt, e))
     /\ (forall category tag v, record_value category tag v e = (tt, e))
     /\ (forall cs, Forall is_recording cs ->
           run clock float_repr cs e = ([], e)))
  /\ (_data (self (enable e).2) = _data (self e)
      /\ _start_times (self (enable e).2) = _start_times (self e)
      /\ _enabled (self (enable e).2) = true)
  /\ (_data (self (disable e).2) = _data (self e)
      /\ _start_times (self (disable e).2) = _start_times (self e)
      /\ _enabled (self (disable e).2) = false).
Proof.
  split; [|by split].
  intros Hen. split; [|split; [|split]].
  - intros. by apply start_record_disabled.
  - intros. by apply end_record_disabled.
  - intros. by apply record_value_disabled.
  - intros. by apply run_disabled.
Qed.
End protocol_claims.

(** C8. [deinit] is [init]: from every state both leave no bucket and no
    pending start, keep the flag, and return normally; every query that
    follows finds nothing. *)
Theorem deinit_is_init e :
  deinit e = init e
  /\ _data (self (deinit e).2) = []
  /\ _start_times (self (deinit e).2) = ∅
  /\ _enabled (self (deinit e).2) = _enabled (self e)
  /\ get_stats None (self (deinit e).2) = AllCategories []
  /\ (forall category,
        get_stats (Some category) (self (init e).2)
        = if decide (category = "") then AllCategories [] else OneCategory []).
Proof.
  repeat split; try done.
  intros category. unfold get_stats. simpl.
  by destruct (decide (category = "")).
Qed.

(** ** Reachable bucket tables are well formed *)

Section reachable.
Variable clock : nat -> Q.
Variable float_repr : Q -> string.

Lemma exec_wf c e :
  wf_data (_data (self e)) ->
  wf_data (_data (self (exec clock float_repr c e).2)).
Proof.
  intros Hwf.
  destruct c as [| | | |category tag ident|category tag key|category tag v];
    simpl; try done; try apply wf_data_nil.
  - destruct (_enabled (self e)) eqn:Hen.
    + by rewrite start_record_enabled.
    + by rewrite start_record_disabled.
  - unfold bind at 1. unfold ret.
    destruct (end_record clock category tag key e) as [[] e'] eqn:He. simpl.
    destruct (_enabled (self e)) eqn:Hen.
    + destruct (key_pending key (self e)) as [[k' t0]|] eqn:Hp.
      * rewrite (end_record_hit _ _ _ _ _ _ _ Hen Hp) in He.
        injection He as <-. simpl. by apply wf_data_append.
      * rewrite (end_record_miss _ _ _ _ _ Hen Hp) in He. by injection He as <-.
    + rewrite end_record_disabled in He by done. by injection He as <-.
  - unfold bind at 1. unfold ret.
    destruct (record_value category tag v e) as [[] e'] eqn:He. simpl.
    destruct (_enabled (self e)) eqn:Hen.
    + rewrite record_value_enabled in He by done. injection He as <-.
      simpl. by apply wf_data_append.
    + rewrite record_value_disabled in He by done. by injection He as <-.
Qed.

Lemma run_wf cs e :
  wf_data (_data (self e)) ->
  wf_data (_data (self (run clock float_repr cs e).2)).
Proof.
  revert e. induction cs as [|c cs IH]; intros e Hwf; [done|].
  rewrite run_cons. simpl. by apply IH, exec_wf.
Qed.

Lemma run_env0_wf cs : wf_data (_data (self (run clock float_repr cs env0).2)).
Proof. apply run_wf, wf_data_nil. Qed.
End reachable.

(** ** The bucket a query reports *)

(** The category argument of [get_stats] under which the bucket of [cat] is
    reported: none, the falsy [""], or [cat] itself. *)
Lemma get_stats_stat_in category s cat tag :
  wf_data (_data s) ->
  category = None \/ category = Some "" \/ category = Some cat ->
  stat_in (get_stats category s) cat tag = bucket_stats (bucket cat tag s).
Proof.
  intros Hwf [->|[->| ->]].
  - by apply get_stats_all.
  - by apply get_stats_all.
  - destruct (decide (cat = "")) as [->|Hne].
    + by apply get_stats_all.
    + by apply get_stats_one.
Qed.

Section bucket_stats_bounds.
Local Open Scope Q_scope.

End bucket_stats_bounds.

(** ** Binary64: comparison and exact values

    The comparison of two finite floats is the comparison of their values;
    this rests on the specification of the primitive operations in
    [FloatAxioms] and on the normal form of binary64 mantissas. *)






Section float_order.
Local Open Scope Q_scope.







End float_order.

Section exact_values.
Local Open Scope Q_scope.










End exact_values.

Section exact_buckets.
Local Open Scope Q_scope.


End exact_buckets.

(** ** [get_stats] in binary64, bucket by bucket *)










(** ** Claims about the aggregation *)

Section aggregation_claims.
Local Open Scope Q_scope.





End aggregation_claims.

(** ** Tokens *)

Lemma string_app_cons (c : ascii) (s1 s2 : string) :
  String c s1 +:+ s2 = String c (s1 +:+ s2).
Proof. reflexivity. Qed.

Lemma string_app_nil_l (s : string) : "" +:+ s = s.
Proof. reflexivity. Qed.

Lemma string_app_assoc (s1 s2 s3 : string) :
  (s1 +:+ s2) +:+ s3 = s1 +:+ s2 +:+ s3.
Proof.
  induction s1 as [|c s1 IH]; [done|].
  by rewrite !string_app_cons, IH.
Qed.

Lemma rsplit_colon_free s : colon_free s = true -> rsplit s = None.
Proof.
  induction s as [|c s IH]; simpl; [done|].
  intros [Hc Hs]%andb_true_iff. rewrite (IH Hs).
  by destruct (Ascii.eqb c ":").
Qed.

Lemma rsplit_app a r :
  colon_free r = true -> rsplit (a +:+ String ":" r) = Some (a, r).
Proof.
  intros Hr. induction a as [|c a IH].
  - rewrite string_app_nil_l. simpl. by rewrite rsplit_colon_free.
  - rewrite string_app_cons. simpl. by rewrite IH.
Qed.

Lemma pretty_N_go_colon_free x s :
  colon_free s = true -> colon_free (pretty_N_go x s) = true.
Proof.
  revert s. induction (N.lt_wf_0 x) as [x _ IH]; intros s Hs.
  assert (x = 0 \/ 0 < x)%N as [->|Hpos] by lia.
  - by rewrite pretty_N_go_0.
  - rewrite pretty_N_go_step by done. apply IH.
    + by apply N.div_lt.
    + simpl. rewrite Hs. unfold pretty_N_char. by repeat case_match.
Qed.

Lemma pretty_N_colon_free (x : N) : colon_free (pretty x) = true.
Proof.
  unfold pretty, pretty_N. case_decide; [done|].
  by apply pretty_N_go_colon_free.
Qed.

Section tokens.
Variable clock : nat -> Q.
Variable float_repr : Q -> string.

(** A token ends in the thread identifier and the instant, each after a
    ["::"], whatever the category and the tag contain. *)
Lemma key_fields_make_key category tag ident t :
  colon_free (float_repr t) = true ->
  key_fields (make_key float_repr category tag ident t)
  = Some (pretty ident, float_repr t).
Proof.
  intros Ht. unfold key_fields, make_key.
  replace (category +:+ "::" +:+ tag +:+ "::" +:+ pretty ident +:+ "::"
             +:+ float_repr t)
    with ((category +:+ "::" +:+ tag +:+ "::" +:+ pretty ident +:+ ":")
            +:+ String ":" (float_repr t))
    by (by rewrite !string_app_assoc).
  rewrite rsplit_app by done.
  replace (category +:+ "::" +:+ tag +:+ "::" +:+ pretty ident +:+ ":")
    with ((category +:+ "::" +:+ tag +:+ "::" +:+ pretty ident)
            +:+ String ":" "")
    by (by rewrite !string_app_assoc).
  rewrite rsplit_app by done.
  replace (category +:+ "::" +:+ tag +:+ "::" +:+ pretty ident)
    with ((category +:+ "::" +:+ tag +:+ ":") +:+ String ":" (pretty ident))
    by (by rewrite !string_app_assoc).
  rewrite rsplit_app by apply pretty_N_colon_free.
  done.
Qed.

Lemma make_key_inj c1 g1 i1 t1 c2 g2 i2 t2 :
  colon_free (float_repr t1) = true ->
  colon_free (float_repr t2) = true ->
  make_key float_repr c1 g1 i1 t1 = make_key float_repr c2 g2 i2 t2 ->
  i1 = i2 /\ float_repr t1 = float_repr t2.
Proof.
  intros H1 H2 Heq.
  pose proof (key_fields_make_key c1 g1 i1 t1 H1) as F1.
  pose proof (key_fields_make_key c2 g2 i2 t2 H2) as F2.
  rewrite Heq, F2 in F1. injection F1 as Hi Ht.
  split; [|done]. symmetry. by apply (inj pretty).
Qed.

(** X18. Two [start_record] calls made while the recorder is enabled hand
    back distinct tokens whenever they come from different threads or read
    instants that print differently, whatever the categories and tags; the
    later call then leaves the pending start of the earlier token as it
    was. *)
Theorem start_record_tokens_distinct e1 e2 c1 g1 i1 c2 g2 i2 :
  _enabled (self e1) = true ->
  _enabled (self e2) = true ->
  colon_free (float_repr (clock (readings e1))) = true ->
  colon_free (float_repr (clock (readings e2))) = true ->
  i1 <> i2 \/
    float_repr (clock (readings e1)) <> float_repr (clock (readings e2)) ->
  let r1 := start_record clock float_repr c1 g1 i1 e1 in
  let r2 := start_record clock float_repr c2 g2 i2 e2 in
  r1.1 <> None /\ r2.1 <> None /\ r1.1 <> r2.1
  /\ (forall k, r1.1 = Some k ->
        _start_times (self r2.2) !! k = _start_times (self e2) !! k).
Proof.
  intros Hen1 Hen2 Hc1 Hc2 Hdiff. cbv zeta.
  rewrite !start_record_enabled by done. simpl.
  assert (Hne : make_key float_repr c1 g1 i1 (clock (readings e1))
                <> make_key float_repr c2 g2 i2 (clock (readings e2))).
  { intros Heq. apply make_key_inj in Heq as [Hi Ht]; [|done..].
    destruct Hdiff; congruence. }
  split; [done|]. split; [done|]. split; [congruence|].
  intros k [= <-]. by rewrite lookup_insert_ne.
Qed.
End tokens.

(** ** Samples are not negative *)

Section nonneg.
Local Open Scope Q_scope.
Variable clock : nat -> Q.
Variable float_repr : Q -> string.
Hypothesis clock_monotonic : forall n, clock n <= clock (S n).

Lemma clock_le n m : (n <= m)%nat -> clock n <= clock m.
Proof.
  induction 1 as [|m _ IH]; [apply Qle_refl|].
  eapply Qle_trans; [exact IH | apply clock_monotonic].
Qed.

Lemma nonneg_inv_empty e :
  _data (self e) = [] -> _start_times (self e) = ∅ -> nonneg_inv clock e.
Proof.
  intros Hd Hs. split.
  - intros cat tag y. unfold bucket. rewrite Hd. by intros [].
  - intros k t0. rewrite Hs. by rewrite lookup_empty.
Qed.

Lemma nonneg_inv_append e e' category tag x :
  nonneg_inv clock e -> 0 <= x ->
  _data (self e') = data_append category tag x (_data (self e)) ->
  forall cat tag' y, In y (bucket cat tag' (self e')) -> 0 <= y.
Proof.
  intros [Hs _] Hx Hd cat tag' y Hy.
  destruct (decide ((cat, tag') = (category, tag))) as [[= -> ->]|Hne].
  - rewrite (bucket_append_same _ _ _ _ _ Hd) in Hy.
    apply in_app_or in Hy as [Hy|[<-|[]]]; [by eapply Hs | done].
  - rewrite (bucket_append_other _ _ _ _ _ _ _ Hd Hne) in Hy. by eapply Hs.
Qed.

Lemma exec_nonneg c e :
  submits_nonneg c -> nonneg_inv clock e ->
  nonneg_inv clock (exec clock float_repr c e).2.
Proof.
  intros Hc Hinv. pose proof Hinv as [Hs Hp].
  destruct c as [| | | |category tag ident|category tag key|category tag v];
    simpl in *; try done; try by apply nonneg_inv_empty.
  - destruct (_enabled (self e)) eqn:Hen.
    + rewrite start_record_enabled by done. simpl. split; [done|].
      simpl. intros k t0 H.
      apply lookup_insert_Some in H as [[_ <-]|[_ H]].
      * exists (S (readings e)). split; [lia | done].
      * destruct (Hp _ _ H) as (n & Hn & ->). exists n. split; [lia | done].
    + by rewrite start_record_disabled.
  - unfold bind at 1. unfold ret.
    destruct (end_record clock category tag key e) as [[] e'] eqn:He.
    cbn [snd].
    destruct (_enabled (self e)) eqn:Hen.
    + destruct (key_pending key (self e)) as [[k' t0]|] eqn:Hk.
      * rewrite (end_record_hit _ _ _ _ _ _ _ Hen Hk) in He.
        injection He as <-.
        apply key_pending_Some in Hk as (_ & _ & Hk).
        destruct (Hp _ _ Hk) as (n & Hn & ->). split.
        -- eapply nonneg_inv_append; [done | | done].
           assert (clock n <= clock (readings e)) by (apply clock_le; lia).
           lra.
        -- simpl. intros k t1 H.
           apply lookup_delete_Some in H as [_ H].
           destruct (Hp _ _ H) as (m & Hm & ->). exists m. split; [lia | done].
      * rewrite (end_record_miss _ _ _ _ _ Hen Hk) in He. injection He as <-.
        split; [done|]. simpl. intros k t1 H.
        destruct (Hp _ _ H) as (m & Hm & ->). exists m. split; [lia | done].
    + rewrite end_record_disabled in He by done. by injection He as <-.
  - unfold bind at 1. unfold ret.
    destruct (record_value category tag v e) as [[] e'] eqn:He. cbn [snd].
    destruct (_enabled (self e)) eqn:Hen.
    + rewrite record_value_enabled in He by done. injection He as <-.
      split; [by eapply nonneg_inv_append|done].
    + rewrite record_value_disabled in He by done. by injection He as <-.
Qed.

Lemma run_nonneg cs e :
  Forall submits_nonneg cs -> nonneg_inv clock e ->
  nonneg_inv clock (run clock float_repr cs e).2.
Proof.
  intros Hcs. revert e. induction Hcs as [|c cs Hc _ IH]; intros e He; [done|].
  rewrite run_cons. simpl. by apply IH, exec_nonneg.
Qed.

(** C6 (as the code has it). Under a monotonic clock every sample that a
    [start_record]/[end_record] pair records is non-negative, and
    [record_value] stores the duration it is given as it is; so after every
    sequence of calls on a fresh recorder in which no negative duration is
    submitted, every sample of every bucket is non-negative. *)
Theorem samples_nonnegative :
  (forall cs cat tag y,
      Forall submits_nonneg cs ->
      In y (bucket cat tag (self (run clock float_repr cs env0).2)) ->
      0 <= y)
  /\ (forall e category tag v,
        _enabled (self e) = true ->
        bucket category tag (self (record_value category tag v e).2)
        = (bucket category tag (self e) ++ [v])%list).
Proof.
  split.
  - intros cs cat tag y Hcs.
    by apply (run_nonneg cs env0 Hcs), nonneg_inv_empty.
  - intros e category tag v Hen. rewrite record_value_enabled by done.
    by eapply bucket_append_same.
Qed.
End nonneg.

(** ** The report *)

Lemma string_app_nil_r (s : string) : s +:+ "" = s.
Proof.
  induction s as [|c s IH]; [done|]. by rewrite string_app_cons, IH.
Qed.

Lemma contains_refl s : contains s s.
Proof. exists "", "". by rewrite string_app_nil_l, string_app_nil_r. Qed.

Lemma contains_app_l s t sub : contains s sub -> contains (s +:+ t) sub.
Proof.
  intros (pre & post & ->). exists pre, (post +:+ t).
  by rewrite !string_app_assoc.
Qed.

Lemma contains_app_r s t sub : contains t sub -> contains (s +:+ t) sub.
Proof.
  intros (pre & post & ->). exists (s +:+ pre), post.
  by rewrite !string_app_assoc.
Qed.

Lemma contains_cons c t sub : contains t sub -> contains (String c t) sub.
Proof.
  intros (pre & post & ->). exists (String c pre), post.
  by rewrite string_app_cons.
Qed.

Lemma contains_trans s t u : contains s t -> contains t u -> contains s u.
Proof.
  intros (pre & post & ->) Htu.
  apply contains_app_r, contains_app_l, Htu.
Qed.

Lemma join_lines_contains lines line :
  In line lines -> contains (join_lines lines) line.
Proof.
  induction lines as [|l rest IH]; [done|].
  intros [->|Hin].
  - destruct rest; [apply contains_refl | apply contains_app_l, contains_refl].
  - destruct rest as [|l' rest']; [done|].
    change (join_lines (l :: l' :: rest'))
      with (l +:+ String "010" (join_lines (l' :: rest'))).
    by apply contains_app_r, contains_cons, IH.
Qed.

Lemma ljust_contains w s : contains (ljust w s) s.
Proof. apply contains_app_l, contains_refl. Qed.

Lemma report_row_contains_cat cat tag stat :
  contains (report_row cat tag stat) cat.
Proof. apply contains_app_l, ljust_contains. Qed.

Lemma report_row_contains_tag cat tag stat :
  contains (report_row cat tag stat) tag.
Proof.
  unfold report_row. apply contains_app_r, contains_app_r, contains_app_l.
  apply ljust_contains.
Qed.

Lemma fold_left_NoDup_keys {A V} (f : odict V -> A -> odict V)
    (l : list A) (acc : odict V) :
  (forall r a, NoDup (od_keys r) -> NoDup (od_keys (f r a))) ->
  NoDup (od_keys acc) -> NoDup (od_keys (fold_left f l acc)).
Proof.
  intros Hf. revert acc. induction l as [|a l IH]; intros acc Hnd; [done|].
  simpl. by apply IH, Hf.
Qed.

Lemma tag_stats_NoDup tags : NoDup (od_keys (tag_stats tags)).
Proof.
  apply fold_left_NoDup_keys; [|constructor].
  intros r [tag values] Hnd.
  destruct (bucket_stats values); [by apply od_set_NoDup | done].
Qed.

Lemma category_stats_NoDup snapshot targets :
  NoDup (od_keys (category_stats snapshot targets)).
Proof.
  apply fold_left_NoDup_keys; [|constructor].
  intros r cat Hnd.
  destruct (od_get cat snapshot); [by apply od_set_NoDup | done].
Qed.

Lemma category_stats_tags_NoDup snapshot targets cat tags :
  In (cat, tags) (category_stats snapshot targets) -> NoDup (od_keys tags).
Proof.
  intros Hin.
  apply (od_get_In_NoDup _ _ _ (category_stats_NoDup _ _)) in Hin.
  rewrite category_stats_get in Hin.
  destruct (decide (cat ∈ targets)); [|done].
  destruct (od_get cat snapshot); [|done].
  injection Hin as <-. apply tag_stats_NoDup.
Qed.

(** The rows of the report are the rows of the buckets that [get_stats]
    reports. *)
Lemma report_rows_spec s line :
  In line (report_rows (all_categories (get_stats None s))) <->
  exists cat tag st,
    stat_in (get_stats None s) cat tag = Some st
    /\ line = report_row cat tag st.
Proof.
  unfold get_stats, stat_in, all_categories, report_rows. simpl.
  rewrite in_flat_map. split.
  - intros ([cat tags] & Hin & Hline).
    apply in_map_iff in Hline as ([tag st] & <- & Hin').
    exists cat, tag, st. split; [|done].
    rewrite (od_get_In_NoDup _ _ _ (category_stats_NoDup _ _) Hin).
    apply od_get_In_NoDup; [|done].
    by eapply category_stats_tags_NoDup.
  - intros (cat & tag & st & Hst & ->).
    destruct (od_get cat (category_stats (_data s) (od_keys (_data s))))
      as [tags|] eqn:Hc; [|done].
    exists (cat, tags). split; [by apply od_get_Some_In|].
    apply in_map_iff. exists (tag, st). split; [done|].
    by apply od_get_Some_In.
Qed.

Section report_claims.
Local Open Scope Q_scope.

(** C7. Every row of the report is the row of a bucket that [get_stats]
    reports, and its Avg(ms) column is [avg_filtered], the trimmed mean,
    times 1000 with three decimals; the row of every non-empty bucket is in
    the report, so the report text contains its category and its tag.  A
    single sample of 0.123 seconds under FileCat/FileTag is rendered as
    123.000, and the samples 0.001, 0.002, 0.003, 0.010 show the trimmed
    2.500 and not the raw 4.000. *)
Theorem report_shows_trimmed_mean :
  (forall s line,
      In line (report_lines s) <->
      line = repeat_char "=" 80 \/ line = report_header
      \/ line = repeat_char "-" 80
      \/ exists cat tag st,
           stat_in (get_stats None s) cat tag = Some st
           /\ line
              = ljust 15 cat +:+ " | " +:+ ljust 15 tag +:+ " | " +:+
                ljust 6 (pretty (N.of_nat (stat_count st))) +:+ " | " +:+
                ljust 8 (format_3f (avg_filtered st * 1000)) +:+ " | " +:+
                ljust 8 (format_3f (stat_min st * 1000)) +:+ " | " +:+
                ljust 8 (format_3f (stat_max st * 1000)))
  /\ (forall s cat tag,
        wf_data (_data s) -> bucket cat tag s <> [] ->
        contains (_generate_report s) cat
        /\ contains (_generate_report s) tag)
  /\ (forall s cat tag,
        wf_data (_data s) -> bucket cat tag s = [0.123] ->
        In (ljust 15 cat +:+ " | " +:+ ljust 15 tag +:+
              " | 1      | 123.000  | 123.000  | 123.000 ")
           (report_lines s))
  /\ (let e := (record_value "FileCat" "FileTag" 0.123 env0).2 in
      report_lines (self e)
      = [repeat_char "=" 80; report_header; repeat_char "-" 80;
         "FileCat         | FileTag         | 1      | 123.000  | 123.000  | 123.000 ";
         repeat_char "=" 80])
  /\ (let e := (run seconds_clock repr_whole
                  [RecordValue "TestCat" "ManualTag" 0.001;
                   RecordValue "TestCat" "ManualTag" 0.002;
                   RecordValue "TestCat" "ManualTag" 0.003;
                   RecordValue "TestCat" "ManualTag" 0.010] env0).2 in
      report_lines (self e)
      = [repeat_char "=" 80; report_header; repeat_char "-" 80;
         "TestCat         | ManualTag       | 4      | 2.500    | 1.000    | 10.000  ";
         repeat_char "=" 80]).
Proof.
  split; [|split; [|split; [|split]]].
  - intros s line. unfold report_lines.
    cbn [app In]. rewrite in_app_iff, report_rows_spec. cbn [In].
    unfold report_row. split.
    + intros [<-|[<-|[<-|[H|[<-|[]]]]]]; auto.
    + intros [->|[->|[->|H]]]; auto 10.
  - intros s cat tag Hwf Hne.
    destruct (bucket_stats_Some _ Hne) as [st Hst].
    assert (Hin : In (report_row cat tag st) (report_lines s)).
    { unfold report_lines. cbn [app In]. do 3 right.
      apply in_app_iff. left.
      apply report_rows_spec. exists cat, tag, st. split; [|done].
      by rewrite get_stats_all. }
    apply join_lines_contains in Hin. split.
    + eapply contains_trans; [exact Hin | apply report_row_contains_cat].
    + eapply contains_trans; [exact Hin | apply report_row_contains_tag].
  - intros s cat tag Hwf Hb.
    pose proof (get_stats_all s cat tag Hwf) as Hst. rewrite Hb in Hst.
    unfold report_lines. cbn [app In]. do 3 right. apply in_app_iff. left.
    apply report_rows_spec. eexists cat, tag, _. split; [exact Hst|].
    unfold report_row. do 4 f_equal.
  - vm_compute. reflexivity.
  - vm_compute. reflexivity.
Qed.
End report_claims.

(** ** Concurrent timers *)

Lemma owner_inj i j k : owner i k -> owner j k -> i = j.
Proof.
  intros [r Hi] [r' Hj]. rewrite Hi in Hj. injection Hj as Hp _.
  by apply (inj pretty).
Qed.

Lemma total_left_insert pool j th p' :
  pool !! j = Some th ->
  total_left (<[j := {| thread_ident := thread_ident th; thread_pc := p' |}]> pool)
    + blocks_left (thread_pc th)
  = total_left pool + blocks_left p'.
Proof.
  revert j. induction pool as [|th0 pool IH]; intros j Hj; [done|].
  destruct j as [|j]; simpl in *.
  - injection Hj as ->. lia.
  - specialize (IH j Hj). lia.
Qed.

Lemma total_left_finished pool : Forall finished pool -> total_left pool = 0%nat.
Proof.
  induction 1 as [|th pool Hth _ IH]; [done|].
  simpl. rewrite IH. unfold finished in Hth. by rewrite Hth.
Qed.

Lemma total_left_spawn idents blocks :
  total_left (spawn idents blocks) = (length idents * blocks)%nat.
Proof.
  induction idents as [|i idents IH]; [done|].
  change (spawn (i :: idents) blocks)
    with ({| thread_ident := i; thread_pc := Idle blocks |}
            :: spawn idents blocks).
  simpl. by rewrite IH.
Qed.

Lemma steps_left_0 p : steps_left p = 0%nat -> p = Idle 0.
Proof. destruct p as [[|todo]| | |]; simpl; intros; (done || lia). Qed.

Section timers_facts.
Variable clock : nat -> Q.
Variable float_repr : Q -> string.
Variables category tag : string.
Hypothesis repr_colon_free : forall n, colon_free (float_repr (clock n)) = true.

Lemma owner_make_key i c g n : owner i (make_key float_repr c g i (clock n)).
Proof.
  exists (float_repr (clock n)). by apply key_fields_make_key.
Qed.

Lemma owner_nonempty i k : owner i k -> k <> "".
Proof. intros [r Hr] ->. by vm_compute in Hr. Qed.

Lemma timer_step_idle i todo e :
  timer_step clock float_repr category tag i (Idle (S todo)) e
  = if _enabled (self e)
    then (Keyed todo (make_key float_repr category tag i (clock (readings e))),
          {| self := self e; readings := S (readings e) |})
    else (Inside todo None, e).
Proof. unfold timer_step. unfold_st. by destruct (_enabled (self e)). Qed.

Lemma timer_step_keyed i todo key e :
  timer_step clock float_repr category tag i (Keyed todo key) e
  = (Inside todo (Some key),
     {| self := {| _data := _data (self e);
                   _start_times :=
                     <[key := clock (readings e)]> (_start_times (self e));
                   _enabled := _enabled (self e) |};
        readings := S (readings e) |}).
Proof. done. Qed.

Lemma timer_step_inside i todo key e :
  timer_step clock float_repr category tag i (Inside todo key) e
  = if _enabled (self e)
    then (Ending todo key (clock (readings e)),
          {| self := self e; readings := S (readings e) |})
    else (Idle todo, e).
Proof. unfold timer_step. unfold_st. by destruct (_enabled (self e)). Qed.

Lemma timer_step_ending i todo key end_time e :
  timer_step clock float_repr category tag i (Ending todo key end_time) e
  = match key_pending key (self e) with
    | Some (k, start_time) =>
        (Idle todo,
         {| self := {| _data := data_append category tag
                                  (end_time - start_time)%Q (_data (self e));
                       _start_times := delete k (_start_times (self e));
                       _enabled := _enabled (self e) |};
            readings := readings e |})
    | None => (Idle todo, e)
    end.
Proof.
  unfold timer_step. unfold_st.
  by destruct (key_pending key (self e)) as [[k t0]|].
Qed.

(** Left alone, the two moves of [__enter__] are [start_record] and the
    two moves of [__exit__] are [end_record]. *)
Lemma enter_uninterrupted i todo e :
  let r1 := timer_step clock float_repr category tag i (Idle (S todo)) e in
  let r2 := match r1.1 with
            | Keyed _ _ => timer_step clock float_repr category tag i r1.1 r1.2
            | _ => r1
            end in
  r2 = (Inside todo (start_record clock float_repr category tag i e).1,
        (start_record clock float_repr category tag i e).2).
Proof.
  cbv zeta. rewrite timer_step_idle.
  destruct (_enabled (self e)) eqn:Hen.
  - rewrite start_record_enabled by done. cbn [fst snd].
    rewrite timer_step_keyed. simpl. by rewrite Hen.
  - by rewrite start_record_disabled.
Qed.

Lemma exit_uninterrupted i todo key e :
  let r1 := timer_step clock float_repr category tag i (Inside todo key) e in
  let r2 := match r1.1 with
            | Ending _ _ _ =>
                timer_step clock float_repr category tag i r1.1 r1.2
            | _ => r1
            end in
  r2 = (Idle todo, (end_record clock category tag key e).2).
Proof.
  cbv zeta. rewrite timer_step_inside.
  destruct (_enabled (self e)) eqn:Hen.
  - cbn [fst snd]. rewrite timer_step_ending. cbn [self readings].
    destruct (key_pending key (self e)) as [[k t0]|] eqn:Hp.
    + rewrite (end_record_hit _ _ _ _ _ _ _ Hen Hp). simpl. by rewrite Hen.
    + by rewrite (end_record_miss _ _ _ _ _ Hen Hp).
  - by rewrite end_record_disabled.
Qed.

(** One move of thread [i] while the recorder is enabled: the flag stays,
    the thread still holds what it relies on, the other threads keep their
    pending tokens, the move is one of the steps the thread had left, and
    a sample is added exactly when a block is completed. *)
Lemma timer_step_spec i p e :
  _enabled (self e) = true ->
  holds (_start_times (self e)) i p ->
  let r := timer_step clock float_repr category tag i p e in
  _enabled (self r.2) = true
  /\ holds (_start_times (self r.2)) i r.1
  /\ (forall i' p0, i' <> i ->
        holds (_start_times (self e)) i' p0 ->
        holds (_start_times (self r.2)) i' p0)
  /\ (length (bucket category tag (self r.2)) + blocks_left r.1
      = length (bucket category tag (self e)) + blocks_left p)%nat
  /\ steps_left r.1 = (steps_left p - 1)%nat.
Proof.
  intros Hen Hh. destruct p as [[|todo]|todo key|todo key|todo key end_time];
    cbv zeta; unfold timer_step; unfold_st; simpl.
  - done.
  - rewrite Hen. simpl. split; [done|]. split; [apply owner_make_key|].
    split; [done|]. split; [done | lia].
  - rewrite Hen. split; [done|]. split.
    + exists key. split; [done|]. split; [done|].
      simpl. rewrite lookup_insert_eq. by eexists.
    + split; [|split; [done | simpl; lia]].
      intros i' p0 Hi'. destruct p0 as [| |? ko|? ko ?]; simpl; try done.
      * intros (k & -> & Ho & Hs). exists k. split; [done|]. split; [done|].
        apply lookup_insert_is_Some. destruct (decide (key = k)); auto.
      * intros (k & -> & Ho & Hs). exists k. split; [done|]. split; [done|].
        apply lookup_insert_is_Some. destruct (decide (key = k)); auto.
  - rewrite Hen. simpl. split; [done|]. split; [done|]. split; [done|].
    split; [done | lia].
  - simpl in Hh. destruct Hh as (k & -> & Ho & [t0 Hs]).
    assert (Hp : key_pending (Some k) (self e) = Some (k, t0)).
    { apply key_pending_Some. split; [done|]. split; [|done].
      by eapply owner_nonempty. }
    rewrite Hp. simpl. split; [done|]. split; [done|]. split.
    + intros i' p0 Hi'. destruct p0 as [| |? ko|? ko ?]; simpl; try done.
      * intros (k' & -> & Ho' & Hs'). exists k'. split; [done|]. split; [done|].
        rewrite lookup_delete_ne; [done|].
        intros <-. apply Hi'. by eapply owner_inj.
      * intros (k' & -> & Ho' & Hs'). exists k'. split; [done|]. split; [done|].
        rewrite lookup_delete_ne; [done|].
        intros <-. apply Hi'. by eapply owner_inj.
    + split; [|lia].
      erewrite bucket_append_same by reflexivity.
      rewrite length_app. simpl. lia.
Qed.

Lemma timer_step_finished i e :
  timer_step clock float_repr category tag i (Idle 0) e = (Idle 0, e).
Proof. done. Qed.

Lemma sched_step_inv c j :
  timers_inv c ->
  let c' := sched_step clock float_repr category tag c j in
  timers_inv c'
  /\ (count_of category tag c' + total_left (c_pool c') = count_of category tag c + total_left (c_pool c))%nat
  /\ length (c_pool c') = length (c_pool c)
  /\ (forall j' th, c_pool c !! j' = Some th ->
        exists th', c_pool c' !! j' = Some th'
          /\ thread_ident th' = thread_ident th
          /\ steps_left (thread_pc th')
             = if decide (j' = j) then (steps_left (thread_pc th) - 1)%nat
               else steps_left (thread_pc th)).
Proof.
  intros (Hen & Hid & Hh). cbv zeta. unfold sched_step.
  destruct (c_pool c !! j) as [th|] eqn:Hj.
  - pose proof (timer_step_spec (thread_ident th) (thread_pc th) (c_env c)
                  Hen (Hh _ _ Hj)) as Hs.
    cbv zeta in Hs.
    destruct (timer_step clock float_repr category tag (thread_ident th)
                (thread_pc th) (c_env c)) as [p' e'].
    simpl in Hs. destruct Hs as (Hen' & Hh' & Hoth & Hcnt & Hsteps).
    assert (Hlt : (j < length (c_pool c))%nat) by (by eapply lookup_lt_Some).
    split; [split; [done | split]|split; [|split]]; simpl.
    + intros j1 j2 th1 th2 H1 H2 Heq.
      apply (Hid j1 j2
               (if decide (j1 = j) then th else th1)
               (if decide (j2 = j) then th else th2)).
      * destruct (decide (j1 = j)) as [->|Hne]; [done|].
        by rewrite list_lookup_insert_ne in H1.
      * destruct (decide (j2 = j)) as [->|Hne]; [done|].
        by rewrite list_lookup_insert_ne in H2.
      * destruct (decide (j1 = j)) as [->|Hne1];
          destruct (decide (j2 = j)) as [->|Hne2]; try done.
        -- rewrite list_lookup_insert_eq in H1 by done.
           injection H1 as <-. done.
        -- rewrite list_lookup_insert_eq in H2 by done.
           injection H2 as <-. done.
    + intros j' th' Hj'. destruct (decide (j' = j)) as [->|Hne].
      * rewrite list_lookup_insert_eq in Hj' by done. by injection Hj' as <-.
      * rewrite list_lookup_insert_ne in Hj' by done.
        apply Hoth; [|by apply (Hh j')].
        intros Heq. apply Hne. by apply (Hid j' j th' th).
    + unfold count_of. simpl.
      pose proof (total_left_insert _ _ _ p' Hj). lia.
    + apply length_insert.
    + intros j' th0 Hj'. destruct (decide (j' = j)) as [->|Hne].
      * rewrite list_lookup_insert_eq by done. eexists. split; [done|].
        rewrite Hj in Hj'. injection Hj' as <-. done.
      * rewrite list_lookup_insert_ne by done. by exists th0.
  - split; [done|]. split; [done|]. split; [done|].
    intros j' th Hj'. exists th. split; [done|]. split; [done|].
    destruct (decide (j' = j)) as [->|]; [congruence | done].
Qed.

Lemma run_schedule_inv schedule c :
  timers_inv c ->
  let c' := run_schedule clock float_repr category tag schedule c in
  timers_inv c'
  /\ (count_of category tag c' + total_left (c_pool c') = count_of category tag c + total_left (c_pool c))%nat
  /\ length (c_pool c') = length (c_pool c)
  /\ (forall j th, c_pool c !! j = Some th ->
        exists th', c_pool c' !! j = Some th'
          /\ steps_left (thread_pc th')
             = (steps_left (thread_pc th) - count_occ Nat.eq_dec schedule j)%nat).
Proof.
  revert c. induction schedule as [|j0 schedule IH]; intros c Hinv; cbv zeta.
  - split; [done|]. split; [done|]. split; [done|].
    intros j th Hj. exists th. split; [done | simpl; lia].
  - unfold run_schedule. cbn [fold_left].
    destruct (sched_step_inv c j0 Hinv) as (Hinv1 & Hcnt1 & Hlen1 & Hst1).
    destruct (IH _ Hinv1) as (Hinv2 & Hcnt2 & Hlen2 & Hst2).
    unfold run_schedule in *.
    split; [done|]. split; [lia|]. split; [congruence|].
    intros j th Hj.
    destruct (Hst1 _ _ Hj) as (th1 & Hj1 & _ & Hs1).
    destruct (Hst2 _ _ Hj1) as (th2 & Hj2 & Hs2).
    exists th2. split; [done|]. rewrite Hs2, Hs1. simpl.
    destruct (Nat.eq_dec j0 j) as [->|Hne].
    + rewrite decide_True by done. lia.
    + rewrite decide_False by congruence. done.
Qed.

Lemma spawn_inv idents blocks e0 :
  NoDup idents -> _enabled (self e0) = true ->
  timers_inv {| c_env := e0; c_pool := spawn idents blocks |}.
Proof.
  intros Hnd Hen. split; [done|]. split; simpl.
  - intros j1 j2 th1 th2 H1 H2 Heq. unfold spawn in *.
    rewrite list_lookup_fmap in H1, H2.
    destruct (idents !! j1) as [i1|] eqn:Hi1; [|done].
    destruct (idents !! j2) as [i2|] eqn:Hi2; [|done].
    simpl in *. injection H1 as <-. injection H2 as <-. simpl in Heq.
    subst i2. by eapply NoDup_lookup.
  - intros j th Hj. unfold spawn in Hj. rewrite list_lookup_fmap in Hj.
    destruct (idents !! j); [|done]. simpl in Hj. by injection Hj as <-.
Qed.

(** C9. Threads with distinct identifiers each run a number of
    [PerfTimer] blocks under the same category and tag against an enabled
    recorder, preempted at will between their accesses to the recorder.
    Whenever all of them have completed their blocks, the bucket holds
    exactly one sample more per block; and they have all completed as soon
    as each was given its four moves per block. *)
Theorem concurrent_timers_count idents blocks schedule e0 :
  NoDup idents ->
  _enabled (self e0) = true ->
  let c := run_schedule clock float_repr category tag schedule
             {| c_env := e0; c_pool := spawn idents blocks |} in
  (Forall finished (c_pool c) ->
     length (bucket category tag (self (c_env c)))
     = (length (bucket category tag (self e0)) + length idents * blocks)%nat)
  /\ ((forall j, (j < length idents)%nat ->
         (4 * blocks <= count_occ Nat.eq_dec schedule j)%nat) ->
      Forall finished (c_pool c)).
Proof.
  intros Hnd Hen c.
  destruct (run_schedule_inv schedule _ (spawn_inv idents blocks e0 Hnd Hen))
    as (_ & Hcnt & Hlen & Hsteps).
  fold c in Hcnt, Hlen, Hsteps. unfold count_of in Hcnt. simpl in *.
  rewrite total_left_spawn in Hcnt. split.
  - intros Hfin. rewrite (total_left_finished _ Hfin) in Hcnt. lia.
  - intros Hfair. apply Forall_lookup. intros j th' Hj'.
    assert (Hj : (j < length idents)%nat).
    { apply lookup_lt_Some in Hj'. rewrite Hlen in Hj'.
      unfold spawn in Hj'. by rewrite length_fmap in Hj'. }
    destruct (lookup_lt_is_Some_2 idents j Hj) as [i Hi].
    destruct (Hsteps j {| thread_ident := i; thread_pc := Idle blocks |})
      as (th2 & Hj2 & Hs2).
    { unfold spawn. by rewrite list_lookup_fmap, Hi. }
    rewrite Hj' in Hj2. injection Hj2 as <-.
    apply steps_left_0. rewrite Hs2. simpl. specialize (Hfair j Hj). lia.
Qed.
End timers_facts.

(** ** The concrete hosts *)

Lemma colon_free_app s1 s2 :
  colon_free (s1 +:+ s2) = colon_free s1 && colon_free s2.
Proof.
  induction s1 as [|c s1 IH]; [done|].
  rewrite string_app_cons. simpl. rewrite IH.
  by destruct (Ascii.eqb c ":").
Qed.

Lemma pretty_Z_colon_free (x : Z) : colon_free (pretty x) = true.
Proof.
  destruct x as [|p|p]; unfold pretty, pretty_Z; [done| |].
  - apply (pretty_N_colon_free (N.pos p)).
  - rewrite colon_free_app. apply (pretty_N_colon_free (N.pos p)).
Qed.

Lemma repr_whole_colon_free t : colon_free (repr_whole t) = true.
Proof.
  unfold repr_whole. rewrite colon_free_app, pretty_Z_colon_free. done.
Qed.

Lemma seconds_clock_monotonic n : (seconds_clock n <= seconds_clock (S n))%Q.
Proof. unfold seconds_clock, Q_of_nat. rewrite <- Zle_Qle. lia. Qed.

(** ** Instances and counterexamples *)

(** ** Instances and counterexamples of the aggregation claims *)

(** On the buckets evaluated in this file the compensated sum of later
    interpreters gives the same total. *)
Lemma py_sum_compensated_examples :
  Forall (fun values =>
            Binary64.py_sum_compensated values = Binary64.py_sum values)
    [[0.001; 0.002; 0.003; 0.010]; [0.01; 0.02]; [0.1; 0.1; 0.1];
     [1e17; 1; 2; 3]; [1; 2; 3; 10]; [0.5; 0.25; 3; 10]]%float.
Proof. repeat constructor. Qed.





(** C4: on a clock too coarse to separate the calls, a thread starts a
    timer, ends it, starts a second one, which hands the consumed token
    back, and ends the first again: the second [end_record] with the same
    token records a second sample. *)
Lemma end_record_reissued_token_counterexample :
  let r1 := start_record frozen_clock repr_whole "Cat" "Tag" 11 env0 in
  let e2 := (end_record frozen_clock "Cat" "Tag" r1.1 r1.2).2 in
  let r3 := start_record frozen_clock repr_whole "Cat" "Tag" 11 e2 in
  let e4 := (end_record frozen_clock "Cat" "Tag" r1.1 r3.2).2 in
  r1.1 = Some "Cat::Tag::11::0.0"
  /\ bucket "Cat" "Tag" (self e2) = [0%Q]
  /\ _start_times (self e2) !! "Cat::Tag::11::0.0" = None
  /\ r3.1 = r1.1
  /\ bucket "Cat" "Tag" (self e4) = [0%Q; 0%Q]
  /\ _data (self e4) <> _data (self r3.2).
Proof. by vm_compute. Qed.

(** C2: a token started under A/x and ended under B/y puts its sample
    into B/y. *)
Lemma end_record_mismatch_counterexample :
  let r1 := start_record seconds_clock repr_whole "A" "x" 11 env0 in
  let e2 := (end_record seconds_clock "B" "y" r1.1 r1.2).2 in
  r1.1 = Some "A::x::11::0.0"
  /\ ("B", "y") <> ("A", "x")
  /\ bucket "B" "y" (self r1.2) = []
  /\ bucket "B" "y" (self e2) = [1%Q]
  /\ bucket "A" "x" (self e2) = [].
Proof. by vm_compute. Qed.

Lemma end_record_uses_caller_labels_witness :
  let r1 := start_record seconds_clock repr_whole "A" "x" 11 env0 in
  let e2 := (end_record seconds_clock "B" "y" r1.1 r1.2).2 in
  bucket "B" "y" (self e2)
  = (bucket "B" "y" (self r1.2) ++ [(seconds_clock 2 - seconds_clock 1)%Q])%list.
Proof.
  apply (end_record_uses_caller_labels seconds_clock repr_whole env0
           "A" "x" 11 "B" "y").
  reflexivity.
Defined.

(** C3: the docstring of [start_record] promises a unique key; on a clock
    too coarse to separate them, two calls of one thread under the same
    labels hand back the same token, and the second pending start replaces
    the first. *)
Lemma start_record_same_instant_counterexample :
  let r1 := start_record frozen_clock repr_whole "Cat" "Tag" 11 env0 in
  let r2 := start_record frozen_clock repr_whole "Cat" "Tag" 11 r1.2 in
  r1.1 = Some "Cat::Tag::11::0.0"
  /\ r2.1 = r1.1
  /\ size (_start_times (self r2.2)) = 1%nat.
Proof. by vm_compute. Qed.

(** X18 on two threads that ask under the same labels at the same
    instant. *)
Lemma start_record_tokens_distinct_witness :
  let r1 := start_record frozen_clock repr_whole "Cat" "Tag" 11 env0 in
  let r2 := start_record frozen_clock repr_whole "Cat" "Tag" 22 env0 in
  r1.1 <> r2.1.
Proof.
  refine (proj1 (proj2 (proj2
    (start_record_tokens_distinct frozen_clock repr_whole env0 env0
       "Cat" "Tag" 11 "Cat" "Tag" 22 _ _ _ _ _)))).
  - reflexivity.
  - reflexivity.
  - reflexivity.
  - reflexivity.
  - left. lia.
Defined.

(** X19 on a sequence that starts a timer, ends it, and ends it again. *)
Lemma end_record_consumes_once_witness :
  let e := (run seconds_clock repr_whole
              [StartRecord "Cat" "Tag" 11;
               EndRecord "Cat" "Tag" (Some "Cat::Tag::11::0.0")] env0).2 in
  bucket "Cat" "Tag" (self e) = [1%Q]
  /\ self (end_record seconds_clock "Cat" "Tag" (Some "Cat::Tag::11::0.0") e).2
     = self e
  /\ self (end_record seconds_clock "Cat" "Tag" (Some "never::handed::0::out")
             env0).2
     = self env0.
Proof.
  intros e. split; [by vm_compute|]. split.
  - apply (proj1 (proj2 (end_record_consumes_once seconds_clock repr_whole))
             e [] "Cat::Tag::11::0.0" "Cat" "Tag").
    + apply (proj1 (end_record_consumes_once seconds_clock repr_whole)
               (run seconds_clock repr_whole [StartRecord "Cat" "Tag" 11]
                  env0).2
               "Cat" "Tag" "Cat::Tag::11::0.0").
      by vm_compute.
    + apply not_elem_of_nil.
  - apply (proj1 (proj2 (proj2
             (end_record_consumes_once seconds_clock repr_whole)))
             [] "never::handed::0::out" "Cat" "Tag").
    vm_compute. apply not_elem_of_nil.
Defined.

(** C5 on a recorder that holds one sample and is then disabled. *)
Lemma disabled_calls_are_inert_witness :
  let e := (run seconds_clock repr_whole
              [RecordValue "Cat" "Tag" 0.5%Q; Disable] env0).2 in
  start_record seconds_clock repr_whole "Cat" "Tag" 11 e = (None, e)
  /\ record_value "Cat" "Tag" 0.25%Q e = (tt, e)
  /\ bucket "Cat" "Tag" (self e) = [0.5%Q].
Proof.
  intros e.
  destruct (proj1 (disabled_calls_are_inert seconds_clock repr_whole e))
    as (Hstart & _ & Hrecord & _).
  - reflexivity.
  - split; [apply Hstart|]. split; [apply Hrecord | reflexivity].
Defined.

(** C6: [record_value] stores a negative duration as it is. *)
Lemma record_value_negative_counterexample :
  let e := (record_value "Cat" "Tag" (-1) env0).2 in
  bucket "Cat" "Tag" (self e) = [(-1)%Q] /\ ~ (0 <= -1)%Q.
Proof. split; [reflexivity | by vm_compute]. Qed.

Lemma samples_nonnegative_witness :
  bucket "Cat" "Tag"
    (self (run seconds_clock repr_whole
             [StartRecord "Cat" "Tag" 11;
              RecordValue "Cat" "Tag" 0.5%Q;
              EndRecord "Cat" "Tag" (Some "Cat::Tag::11::0.0")] env0).2)
  = [0.5%Q; 1%Q]
  /\ (0 <= 1)%Q.
Proof.
  split; [by vm_compute|].
  apply (proj1 (samples_nonnegative seconds_clock repr_whole
                  seconds_clock_monotonic)
           [StartRecord "Cat" "Tag" 11;
            RecordValue "Cat" "Tag" 0.5%Q;
            EndRecord "Cat" "Tag" (Some "Cat::Tag::11::0.0")]
           "Cat" "Tag" 1%Q).
  - repeat constructor. by vm_compute.
  - vm_compute. right. by left.
Defined.

(** C7 on the recorder of the unit test. *)
Lemma report_shows_trimmed_mean_witness :
  let s := self (run seconds_clock repr_whole
                   [RecordValue "FileCat" "FileTag" 0.123%Q] env0).2 in
  contains (_generate_report s) "FileCat"
  /\ contains (_generate_report s) "FileTag".
Proof.
  intros s.
  apply (proj1 (proj2 report_shows_trimmed_mean) s "FileCat" "FileTag").
  - apply run_env0_wf.
  - by vm_compute.
Defined.

(** C9 with two threads, two blocks each, preempted between every two
    moves. *)
Lemma concurrent_timers_count_witness :
  let c := run_schedule seconds_clock repr_whole "ThreadCat" "ThreadTag"
             [0; 1; 0; 1; 1; 0; 0; 1; 1; 1; 0; 0; 0; 1; 1; 0]%nat
             {| c_env := env0; c_pool := spawn [11%N; 22%N] 2 |} in
  length (bucket "ThreadCat" "ThreadTag" (self (c_env c))) = 4%nat.
Proof.
  intros c.
  apply (proj1 (concurrent_timers_count seconds_clock repr_whole
                  "ThreadCat" "ThreadTag"
                  (fun n => repr_whole_colon_free (seconds_clock n))
                  [11%N; 22%N] 2
                  [0; 1; 0; 1; 1; 0; 0; 1; 1; 1; 0; 0; 0; 1; 1; 0]%nat env0
                  ltac:(apply NoDup_cons; split;
                          [by intros ?%list_elem_of_singleton
                          | apply NoDup_singleton])
                  eq_refl)).
  by repeat constructor.
Defined.

(** * Further properties of the queries *)

(** X5. The category argument of [get_stats]: a category that holds no
    data gives the empty mapping and no error; the empty string counts as
    no argument and gives every category; any other category gives exactly
    its entry of the full result. *)
Theorem get_stats_category_argument s :
  (forall cat, cat <> "" -> od_get cat (_data s) = None ->
     get_stats (Some cat) s = OneCategory [])
  /\ get_stats (Some "") s = get_stats None s
  /\ (forall cat, cat <> "" ->
        get_stats (Some cat) s
        = OneCategory
            (default [] (od_get cat (all_categories (get_stats None s))))).
Proof.
  split; [|split].
  - intros cat Hne Hnone. unfold get_stats. simpl.
    rewrite decide_False by done.
    by rewrite category_stats_get, Hnone, decide_True by (by left).
  - done.
  - intros cat Hne. unfold get_stats. simpl.
    rewrite decide_False by done. simpl. f_equal.
    rewrite !category_stats_get. rewrite decide_True by (by left).
    destruct (od_get cat (_data s)) as [tags|] eqn:Hc; simpl.
    + rewrite decide_True; [done|].
      apply list_elem_of_In. by eapply od_get_Some_key.
    + by destruct (decide (cat ∈ od_keys (_data s))).
Qed.

(** ** Buckets are never empty, and the queries enumerate them in order *)

Lemma no_empty_bucket_append category tag x data :
  no_empty_bucket data -> no_empty_bucket (data_append category tag x data).
Proof.
  intros Hne cat tags tag' values Hin Hin'. unfold data_append in Hin.
  apply od_set_In in Hin as [[-> ->]|Hin]; [|by eapply Hne].
  apply od_set_In in Hin' as [[-> ->]|Hin'].
  - intros H. by apply app_eq_nil in H as [_ ?].
  - destruct (od_get category data) as [inner|] eqn:Hg; simpl in Hin';
      [|done].
    eapply Hne; [by apply od_get_Some_In | done].
Qed.

Section reachable_buckets.
Variable clock : nat -> Q.
Variable float_repr : Q -> string.

Lemma exec_no_empty c e :
  no_empty_bucket (_data (self e)) ->
  no_empty_bucket (_data (self (exec clock float_repr c e).2)).
Proof.
  intros Hne.
  destruct c as [| | | |category tag ident|category tag key|category tag v];
    simpl; try done; try (by intros ? ? ? ? []).
  - destruct (_enabled (self e)) eqn:Hen.
    + by rewrite start_record_enabled.
    + by rewrite start_record_disabled.
  - unfold bind at 1. unfold ret.
    destruct (end_record clock category tag key e) as [[] e'] eqn:He. simpl.
    destruct (_enabled (self e)) eqn:Hen.
    + destruct (key_pending key (self e)) as [[k' t0]|] eqn:Hp.
      * rewrite (end_record_hit _ _ _ _ _ _ _ Hen Hp) in He.
        injection He as <-. simpl. by apply no_empty_bucket_append.
      * rewrite (end_record_miss _ _ _ _ _ Hen Hp) in He. by injection He as <-.
    + rewrite end_record_disabled in He by done. by injection He as <-.
  - unfold bind at 1. unfold ret.
    destruct (record_value category tag v e) as [[] e'] eqn:He. simpl.
    destruct (_enabled (self e)) eqn:Hen.
    + rewrite record_value_enabled in He by done. injection He as <-.
      simpl. by apply no_empty_bucket_append.
    + rewrite record_value_disabled in He by done. by injection He as <-.
Qed.

Lemma run_no_empty cs e :
  no_empty_bucket (_data (self e)) ->
  no_empty_bucket (_data (self (run clock float_repr cs e).2)).
Proof.
  revert e. induction cs as [|c cs IH]; intros e Hne; [done|].
  rewrite run_cons. simpl. by apply IH, exec_no_empty.
Qed.
End reachable_buckets.

Lemma od_set_fresh {V} (k : string) (v : V) (d : odict V) :
  od_get k d = None -> od_set k v d = (d ++ [(k, v)])%list.
Proof.
  induction d as [|[k' v'] d IH]; simpl; [done|].
  destruct (decide (k = k')); [done|]. intros H. by rewrite IH.
Qed.

Lemma od_keys_app {V} (d1 d2 : odict V) :
  od_keys (d1 ++ d2) = (od_keys d1 ++ od_keys d2)%list.
Proof. unfold od_keys. apply map_app. Qed.

(** With unique tags and no empty bucket, the inner loop of [get_stats]
    produces one entry per bucket, in order. *)
Lemma tag_stats_fold_keys (tags : odict (list Q)) (acc : odict Stat) :
  NoDup (od_keys acc ++ od_keys tags) ->
  (forall tag values, In (tag, values) tags -> values <> []) ->
  od_keys
    (fold_left (fun cat_result '(tag, values) =>
                  match bucket_stats values with
                  | Some st => od_set tag st cat_result
                  | None => cat_result
                  end) tags acc)
  = (od_keys acc ++ od_keys tags)%list.
Proof.
  revert acc. induction tags as [|[k values] tags IH]; intros acc Hnd Hne.
  - simpl. by rewrite app_nil_r.
  - cbn [fold_left].
    destruct (bucket_stats_Some values) as [st Hst].
    { eapply Hne. by left. }
    rewrite Hst.
    assert (Hk : od_get k acc = None).
    { apply od_get_not_key. intros Hin%list_elem_of_In.
      apply NoDup_app in Hnd as (_ & Hdis & _).
      apply (Hdis k Hin). simpl. by left. }
    rewrite (od_set_fresh _ _ _ Hk). rewrite IH.
    + rewrite od_keys_app. simpl. by rewrite <- app_assoc.
    + rewrite od_keys_app. simpl. by rewrite <- app_assoc.
    + intros tag values' Hin. eapply Hne. by right.
Qed.

Lemma tag_stats_keys (tags : odict (list Q)) :
  NoDup (od_keys tags) ->
  (forall tag values, In (tag, values) tags -> values <> []) ->
  od_keys (tag_stats tags) = od_keys tags.
Proof.
  intros Hnd Hne. unfold tag_stats. by rewrite tag_stats_fold_keys.
Qed.

(** With unique categories, the outer loop produces one entry per category,
    in order. *)
Lemma category_stats_fold_entries snapshot (l : odict (odict (list Q)))
    (acc : odict (odict Stat)) :
  NoDup (od_keys acc ++ od_keys l) ->
  (forall cat tags, In (cat, tags) l -> od_get cat snapshot = Some tags) ->
  fold_left (fun result cat =>
               match od_get cat snapshot with
               | Some tags => od_set cat (tag_stats tags) result
               | None => result
               end) (od_keys l) acc
  = (acc ++ map (fun ct => (fst ct, tag_stats (snd ct))) l)%list.
Proof.
  revert acc. induction l as [|[k tags] l IH]; intros acc Hnd Hget.
  - simpl. by rewrite app_nil_r.
  - cbn [od_keys map fold_left fst snd].
    rewrite (Hget k tags) by (by left).
    assert (Hk : od_get k acc = None).
    { apply od_get_not_key. intros Hin%list_elem_of_In.
      apply NoDup_app in Hnd as (_ & Hdis & _).
      apply (Hdis k Hin). simpl. by left. }
    rewrite (od_set_fresh _ _ _ Hk).
    change (map fst l) with (od_keys l). rewrite IH.
    + by rewrite <- app_assoc.
    + rewrite od_keys_app. simpl. by rewrite <- app_assoc.
    + intros cat tags' Hin. apply Hget. by right.
Qed.

Lemma get_stats_all_entries s :
  wf_data (_data s) ->
  all_categories (get_stats None s)
  = map (fun ct => (fst ct, tag_stats (snd ct))) (_data s).
Proof.
  intros [Hnd Hin]. unfold get_stats. simpl. unfold category_stats.
  rewrite category_stats_fold_entries; [done | done |].
  intros cat tags H. by apply od_get_In_NoDup.
Qed.

Lemma report_rows_length (stats : odict (odict Stat)) :
  length (report_rows stats)
  = sum_list (map (fun ct => length (snd ct)) stats).
Proof.
  unfold report_rows. induction stats as [|[cat tags] stats IH]; [done|].
  simpl. rewrite length_app, length_map, IH. done.
Qed.

(** X6. Every bucket that a sequence of calls on a fresh recorder leaves
    behind holds at least one sample and every category and tag occurs
    once.  On such a table [get_stats] lists the categories, and under each
    category the tags, in the order in which they were first recorded,
    leaving none out, and the report has one row per bucket between its
    three header lines and its closing line. *)
Theorem get_stats_enumerates_buckets :
  (forall clock float_repr cs,
      let s := self (run clock float_repr cs env0).2 in
      wf_data (_data s) /\ no_empty_bucket (_data s))
  /\ (forall s,
        wf_data (_data s) -> no_empty_bucket (_data s) ->
        od_keys (all_categories (get_stats None s)) = od_keys (_data s)
        /\ (forall cat tags,
              od_get cat (_data s) = Some tags ->
              exists r,
                od_get cat (all_categories (get_stats None s)) = Some r
                /\ od_keys r = od_keys tags)
        /\ length (report_lines s) = (4 + bucket_count (_data s))%nat).
Proof.
  split.
  - intros clock float_repr cs s. split.
    + apply run_env0_wf.
    + apply run_no_empty. by intros ? ? ? ? [].
  - intros s Hwf Hne.
    pose proof (get_stats_all_entries s Hwf) as Hall.
    assert (Hkeys : forall cat tags,
               In (cat, tags) (_data s) ->
               od_keys (tag_stats tags) = od_keys tags).
    { intros cat tags Hin. apply tag_stats_keys.
      - destruct Hwf as [_ Hwf]. by eapply Hwf.
      - intros tag values Hin'. by eapply Hne. }
    split; [|split].
    + rewrite Hall. unfold od_keys. rewrite map_map. done.
    + intros cat tags Hget. exists (tag_stats tags). split.
      * rewrite Hall. clear -Hget.
        induction (_data s) as [|[k v] d IH]; simpl in *; [done|].
        destruct (decide (cat = k)); [by injection Hget as -> | by apply IH].
      * eapply Hkeys. by apply od_get_Some_In.
    + unfold report_lines. cbv zeta. rewrite Hall.
      cbn [app length]. rewrite length_app. cbn [length].
      rewrite report_rows_length, map_map. unfold bucket_count.
      replace (sum_list (map (fun ct => length (snd ct)) (_data s)))
        with (sum_list
                (map (fun x => length
                                 (snd (fst x, tag_stats (snd x)))) (_data s)));
        [lia|].
      f_equal. apply map_ext_in. intros [cat tags] Hin. simpl.
      pose proof (Hkeys _ _ Hin) as Hk. unfold od_keys in Hk.
      by rewrite <- (length_map fst), Hk, length_map.
Qed.

(** * Further properties of the recording protocol *)

Section recording_more.
Variable clock : nat -> Q.
Variable float_repr : Q -> string.

(** X7. Durations submitted one after the other to an enabled recorder
    under one category and tag are appended to that bucket in the order of
    submission; no other bucket, no pending start and no clock reading is
    involved. *)
Theorem record_value_keeps_order e category tag values :
  _enabled (self e) = true ->
  let e' := (run clock float_repr (map (RecordValue category tag) values) e).2 in
  bucket category tag (self e') = (bucket category tag (self e) ++ values)%list
  /\ (forall cat' tag', (cat', tag') <> (category, tag) ->
        bucket cat' tag' (self e') = bucket cat' tag' (self e))
  /\ _start_times (self e') = _start_times (self e)
  /\ _enabled (self e') = true
  /\ readings e' = readings e.
Proof.
  revert e. induction values as [|v values IH]; intros e Hen; cbv zeta.
  - simpl. by rewrite app_nil_r.
  - cbn [map]. rewrite run_cons. cbn [snd].
    assert (He : (exec clock float_repr (RecordValue category tag v) e).2
                 = {| self := {| _data := data_append category tag v
                                            (_data (self e));
                                 _start_times := _start_times (self e);
                                 _enabled := true |};
                      readings := readings e |}).
    { simpl. unfold bind at 1. unfold ret.
      by rewrite record_value_enabled. }
    rewrite He.
    match goal with
    | |- context [run _ _ _ ?e1] =>
        destruct (IH e1 eq_refl) as (Hb & Ho & Hs & Hen' & Hr)
    end.
    split; [|split; [|done]].
    + rewrite Hb. erewrite bucket_append_same by reflexivity.
      by rewrite <- app_assoc.
    + intros cat' tag' Hne. rewrite (Ho _ _ Hne).
      by eapply bucket_append_other.
Qed.

Lemma exec_bucket_grows c e cat tag :
  no_reset c ->
  exists more,
    bucket cat tag (self (exec clock float_repr c e).2)
    = (bucket cat tag (self e) ++ more)%list.
Proof.
  intros Hc.
  assert (Happ : forall category' tag' x s s',
             _data s' = data_append category' tag' x (_data s) ->
             exists more, bucket cat tag s' = (bucket cat tag s ++ more)%list).
  { intros category' tag' x s s' Hd.
    destruct (decide ((cat, tag) = (category', tag'))) as [[= -> ->]|Hne].
    - exists [x]. by eapply bucket_append_same.
    - exists []. rewrite app_nil_r. by eapply bucket_append_other. }
  assert (Hsame : exists more,
             bucket cat tag (self e) = (bucket cat tag (self e) ++ more)%list).
  { exists []. by rewrite app_nil_r. }
  destruct c as [| | | |category tag' ident|category tag' key|category tag' v];
    simpl in *; try done.
  - destruct (_enabled (self e)) eqn:Hen.
    + by rewrite start_record_enabled.
    + by rewrite start_record_disabled.
  - unfold bind at 1. unfold ret.
    destruct (end_record clock category tag' key e) as [[] e'] eqn:He. simpl.
    destruct (_enabled (self e)) eqn:Hen.
    + destruct (key_pending key (self e)) as [[k' t0]|] eqn:Hp.
      * rewrite (end_record_hit _ _ _ _ _ _ _ Hen Hp) in He.
        injection He as <-. by eapply Happ.
      * rewrite (end_record_miss _ _ _ _ _ Hen Hp) in He. by injection He as <-.
    + rewrite end_record_disabled in He by done. by injection He as <-.
  - unfold bind at 1. unfold ret.
    destruct (record_value category tag' v e) as [[] e'] eqn:He. simpl.
    destruct (_enabled (self e)) eqn:Hen.
    + rewrite record_value_enabled in He by done. injection He as <-.
      by eapply Happ.
    + rewrite record_value_disabled in He by done. by injection He as <-.
Qed.

(** X8. Buckets only grow: along every sequence of calls without [init]
    and [deinit], what a bucket held before is a prefix of what it holds
    after, so no sample is ever removed, changed or reordered. *)
Theorem buckets_only_grow cs e cat tag :
  Forall no_reset cs ->
  exists more,
    bucket cat tag (self (run clock float_repr cs e).2)
    = (bucket cat tag (self e) ++ more)%list.
Proof.
  intros Hcs. revert e. induction Hcs as [|c cs Hc _ IH]; intros e.
  - exists []. by rewrite app_nil_r.
  - rewrite run_cons. cbn [snd].
    destruct (exec_bucket_grows c e cat tag Hc) as [m1 H1].
    destruct (IH (exec clock float_repr c e).2) as [m2 H2].
    exists (m1 ++ m2)%list. by rewrite H2, H1, <- app_assoc.
Qed.

Lemma exec_keeps_token c e k :
  keeps_token k c ->
  is_Some (_start_times (self e) !! k) ->
  is_Some (_start_times (self (exec clock float_repr c e).2) !! k).
Proof.
  intros Hc Hk.
  destruct c as [| | | |category tag ident|category tag key|category tag v];
    simpl in *; try done.
  - destruct (_enabled (self e)) eqn:Hen.
    + rewrite start_record_enabled by done. simpl.
      apply lookup_insert_is_Some.
      destruct (decide (make_key float_repr category tag ident
                          (clock (readings e)) = k)); auto.
    + by rewrite start_record_disabled.
  - unfold bind at 1. unfold ret.
    destruct (end_record clock category tag key e) as [[] e'] eqn:He. simpl.
    destruct (_enabled (self e)) eqn:Hen.
    + destruct (key_pending key (self e)) as [[k' t0]|] eqn:Hp.
      * rewrite (end_record_hit _ _ _ _ _ _ _ Hen Hp) in He.
        injection He as <-. simpl.
        apply key_pending_Some in Hp as (-> & _ & _).
        rewrite lookup_delete_ne; [done | congruence].
      * rewrite (end_record_miss _ _ _ _ _ Hen Hp) in He. by injection He as <-.
    + rewrite end_record_disabled in He by done. by injection He as <-.
  - unfold bind at 1. unfold ret.
    destruct (record_value category tag v e) as [[] e'] eqn:He. simpl.
    destruct (_enabled (self e)) eqn:Hen.
    + rewrite record_value_enabled in He by done. by injection He as <-.
    + rewrite record_value_disabled in He by done. by injection He as <-.
Qed.

(** X9. A pending start that is never ended stays: whatever is called
    (other starts, ends with other or missing tokens, submissions, enabling
    and disabling), the token remains pending until an [end_record] with
    that very token, or [init] or [deinit]. *)
Theorem pending_start_stays cs e k :
  Forall (keeps_token k) cs ->
  is_Some (_start_times (self e) !! k) ->
  is_Some (_start_times (self (run clock float_repr cs e).2) !! k).
Proof.
  intros Hcs. revert e. induction Hcs as [|c cs Hc _ IH]; intros e Hk; [done|].
  rewrite run_cons. cbn [snd]. by apply IH, exec_keeps_token.
Qed.
End recording_more.

(** * The scoped timer *)

Section timer_facts.
Local Open Scope Q_scope.
Variable clock : nat -> Q.
Variable float_repr : Q -> string.

Lemma with_timer_eq {A} category tag ident (body : St (outcome A)) e :
  with_timer clock float_repr category tag ident body e
  = ((body (start_record clock float_repr category tag ident e).2).1,
     (end_record clock category tag
        (start_record clock float_repr category tag ident e).1
        (body (start_record clock float_repr category tag ident e).2).2).2).
Proof.
  unfold with_timer, PerfTimer.__enter__, PerfTimer.__exit__,
    PerfTimer.__init__, bind, ret. simpl.
  destruct (start_record clock float_repr category tag ident e) as [k e1].
  simpl. destruct (body e1) as [r eb]. simpl.
  by destruct (end_record clock category tag k eb) as [[] e3].
Qed.

(** X10. A [with PerfTimer(category, tag)] block entered while the
    recorder is enabled, whose body leaves the recorder enabled and the
    timer's pending start in place, records exactly one sample: the clock
    reading taken on exit minus the reading stored on entry, appended to the
    bucket of the timer's labels.  The token is consumed, no other bucket
    changes, and the block ends as its body ended, also when the body
    raises. *)
Theorem with_timer_records_once {A} e category tag ident
    (body : St (outcome A)) :
  _enabled (self e) = true ->
  let key := make_key float_repr category tag ident (clock (readings e)) in
  let rb := body (start_record clock float_repr category tag ident e).2 in
  _enabled (self rb.2) = true ->
  _start_times (self rb.2) !! key = Some (clock (S (readings e))) ->
  let r := with_timer clock float_repr category tag ident body e in
  r.1 = rb.1
  /\ bucket category tag (self r.2)
     = (bucket category tag (self rb.2)
          ++ [clock (readings rb.2) - clock (S (readings e))])%list
  /\ _start_times (self r.2) = delete key (_start_times (self rb.2))
  /\ (forall cat' tag', (cat', tag') <> (category, tag) ->
        bucket cat' tag' (self r.2) = bucket cat' tag' (self rb.2))
  /\ readings r.2 = S (readings rb.2).
Proof.
  intros Hen key rb Henb Hkey r. subst r. rewrite with_timer_eq.
  fold rb. rewrite start_record_enabled by done. cbn [fst snd].
  fold key.
  assert (Hp : key_pending (Some key) (self rb.2)
               = Some (key, clock (S (readings e)))).
  { apply key_pending_Some. split; [done|]. split; [|done].
    apply make_key_nonempty. }
  rewrite (end_record_hit _ _ _ _ _ _ _ Henb Hp). cbn [fst snd self readings].
  split; [done|]. split; [by eapply bucket_append_same|].
  split; [done|]. split; [|done].
  intros cat' tag' Hne. by eapply bucket_append_other.
Qed.

(** X12. A timer entered while the recorder is disabled holds no token:
    its block records nothing on exit, whatever the body does, even when the
    body enables the recorder. *)
Theorem with_timer_disabled {A} e category tag ident (body : St (outcome A)) :
  _enabled (self e) = false ->
  let r := with_timer clock float_repr category tag ident body e in
  r.1 = (body e).1 /\ self r.2 = self (body e).2.
Proof.
  intros Hen r. subst r. rewrite with_timer_eq.
  rewrite start_record_disabled by done. cbn [fst snd].
  split; [done|].
  destruct (_enabled (self (body e).2)) eqn:Henb.
  - by rewrite end_record_miss.
  - by rewrite end_record_disabled.
Qed.

(** X13. What happens to a measurement between its start and its end.
    After [init] the pending start is gone and the [end_record] records
    nothing.  After [disable] the [end_record] records nothing either, but
    the start stays pending: once the recorder is enabled again, an
    [end_record] with the token records the time elapsed since the start. *)
Theorem end_record_after_reset_or_disable e category tag ident :
  _enabled (self e) = true ->
  let r1 := start_record clock float_repr category tag ident e in
  let key := make_key float_repr category tag ident (clock (readings e)) in
  (let e3 := (end_record clock category tag r1.1 (init r1.2).2).2 in
   _data (self e3) = [] /\ _start_times (self e3) = ∅)
  /\ (let e2 := (disable r1.2).2 in
      let e3 := (end_record clock category tag r1.1 e2).2 in
      let e4 := (enable e3).2 in
      let e5 := (end_record clock category tag r1.1 e4).2 in
      e3 = e2
      /\ _start_times (self e3) !! key = Some (clock (S (readings e)))
      /\ bucket category tag (self e5)
         = (bucket category tag (self e)
              ++ [clock (S (S (readings e))) - clock (S (readings e))])%list
      /\ _start_times (self e5) !! key = None).
Proof.
  intros Hen. cbv zeta. rewrite start_record_enabled by done.
  cbn [fst snd]. split.
  - unfold init, bind, get_self, put_self. cbn [fst snd self readings].
    rewrite end_record_miss; [done | done |].
    apply key_pending_None. right. right. eexists. split; [done|].
    apply lookup_empty.
  - unfold disable, enable, bind, get_self, put_self.
    cbn [fst snd self readings _data _start_times _enabled].
    rewrite end_record_disabled by done.
    cbn [fst snd self readings _data _start_times _enabled].
    split; [done|]. split; [apply lookup_insert_eq|].
    erewrite end_record_hit; [| done |].
    2:{ apply key_pending_Some. split; [done|]. split.
        - apply make_key_nonempty.
        - apply lookup_insert_eq. }
    cbn [fst snd self readings _data _start_times _enabled].
    split; [by eapply bucket_append_same | apply lookup_delete_eq].
Qed.

Hypothesis clock_monotonic : forall n, clock n <= clock (S n).

(** X11. Under a monotonic clock the timer never under-reports: the sample
    recorded by the block of X10 is at least the time that passed between
    any two clock readings taken after the entry and up to the exit. *)
Theorem with_timer_covers_body {A} e category tag ident
    (body : St (outcome A)) a b :
  _enabled (self e) = true ->
  let key := make_key float_repr category tag ident (clock (readings e)) in
  let rb := body (start_record clock float_repr category tag ident e).2 in
  _enabled (self rb.2) = true ->
  _start_times (self rb.2) !! key = Some (clock (S (readings e))) ->
  (S (readings e) <= a)%nat -> (b <= readings rb.2)%nat ->
  let r := with_timer clock float_repr category tag ident body e in
  exists sample,
    bucket category tag (self r.2)
    = (bucket category tag (self rb.2) ++ [sample])%list
    /\ clock b - clock a <= sample.
Proof.
  intros Hen key rb Henb Hkey Ha Hb r. subst r. rewrite with_timer_eq.
  fold rb. rewrite start_record_enabled by done. cbn [fst snd]. fold key.
  assert (Hp : key_pending (Some key) (self rb.2)
               = Some (key, clock (S (readings e)))).
  { apply key_pending_Some. split; [done|]. split; [|done].
    apply make_key_nonempty. }
  rewrite (end_record_hit _ _ _ _ _ _ _ Henb Hp). cbn [fst snd self].
  eexists. split; [by eapply bucket_append_same|].
  pose proof (clock_le clock clock_monotonic _ _ Ha).
  pose proof (clock_le clock clock_monotonic _ _ Hb).
  lra.
Qed.
End timer_facts.

(** * Reading a token back *)

Section token_fields.
Variable clock : nat -> Q.
Variable float_repr : Q -> string.

Lemma key_labels_make_key category tag ident t :
  colon_free tag = true ->
  colon_free (float_repr t) = true ->
  key_labels (make_key float_repr category tag ident t) = Some (category, tag).
Proof.
  intros Hg Ht. unfold key_labels, make_key.
  replace (category +:+ "::" +:+ tag +:+ "::" +:+ pretty ident +:+ "::"
             +:+ float_repr t)
    with ((category +:+ "::" +:+ tag +:+ "::" +:+ pretty ident +:+ ":")
            +:+ String ":" (float_repr t))
    by (by rewrite !string_app_assoc).
  rewrite rsplit_app by done. simpl.
  replace (category +:+ "::" +:+ tag +:+ "::" +:+ pretty ident +:+ ":")
    with ((category +:+ "::" +:+ tag +:+ "::" +:+ pretty ident)
            +:+ String ":" "")
    by (by rewrite !string_app_assoc).
  rewrite rsplit_app by done. simpl.
  replace (category +:+ "::" +:+ tag +:+ "::" +:+ pretty ident)
    with ((category +:+ "::" +:+ tag +:+ ":") +:+ String ":" (pretty ident))
    by (by rewrite !string_app_assoc).
  rewrite rsplit_app by apply pretty_N_colon_free. simpl.
  replace (category +:+ "::" +:+ tag +:+ ":")
    with ((category +:+ "::" +:+ tag) +:+ String ":" "")
    by (by rewrite !string_app_assoc).
  rewrite rsplit_app by done. simpl.
  replace (category +:+ "::" +:+ tag)
    with ((category +:+ ":") +:+ String ":" tag)
    by (by rewrite !string_app_assoc).
  rewrite rsplit_app by done. simpl.
  by rewrite rsplit_app.
Qed.

(** X14. A token can be read back.  When the tags hold no colon, two
    [start_record] calls on an enabled recorder that hand back the same
    token were made with the same category and the same tag, by the same
    thread, at instants that print alike.  Without that restriction the
    labels are not determined: moving a ["::"] from the category to the tag
    gives the same token. *)
Theorem token_determines_labels :
  (forall e1 e2 c1 g1 i1 c2 g2 i2,
      _enabled (self e1) = true -> _enabled (self e2) = true ->
      colon_free g1 = true -> colon_free g2 = true ->
      colon_free (float_repr (clock (readings e1))) = true ->
      colon_free (float_repr (clock (readings e2))) = true ->
      (start_record clock float_repr c1 g1 i1 e1).1
      = (start_record clock float_repr c2 g2 i2 e2).1 ->
      c1 = c2 /\ g1 = g2 /\ i1 = i2
      /\ float_repr (clock (readings e1)) = float_repr (clock (readings e2)))
  /\ (forall e c g1 g2 i,
        (start_record clock float_repr (c +:+ "::" +:+ g1) g2 i e).1
        = (start_record clock float_repr c (g1 +:+ "::" +:+ g2) i e).1).
Proof.
  split.
  - intros e1 e2 c1 g1 i1 c2 g2 i2 Hen1 Hen2 Hg1 Hg2 Ht1 Ht2 Heq.
    rewrite !start_record_enabled in Heq by done. cbn [fst] in Heq.
    injection Heq as Heq.
    pose proof (key_labels_make_key c1 g1 i1 _ Hg1 Ht1) as L1.
    pose proof (key_labels_make_key c2 g2 i2 _ Hg2 Ht2) as L2.
    rewrite Heq, L2 in L1. injection L1 as -> ->.
    apply make_key_inj in Heq as [-> ->]; done.
  - intros e c g1 g2 i. destruct (_enabled (self e)) eqn:Hen.
    + rewrite !start_record_enabled by done. cbn [fst]. f_equal.
      unfold make_key. by rewrite !string_app_assoc.
    + by rewrite !start_record_disabled.
Qed.
End token_fields.

(** * The singleton *)

Lemma construct_first h :
  cls_instance h = None ->
  construct h
  = (next_address h,
     {| objects := <[next_address h := Ready fresh]> (objects h);
        next_address := S (next_address h);
        cls_instance := Some (next_address h) |}).
Proof.
  intros Hc. unfold construct, __new__. rewrite Hc. simpl.
  by rewrite alter_insert_eq.
Qed.

Lemma construct_again h a s :
  cls_instance h = Some a -> objects h !! a = Some (Ready s) ->
  construct h = (a, h).
Proof.
  intros Hc Ho. unfold construct, __new__. rewrite Hc.
  rewrite alter_id.
  - by destruct h.
  - intros o Ho'. rewrite Ho in Ho'. by injection Ho' as <-.
Qed.

Lemma construct_ready h :
  heap_ok h ->
  exists s,
    objects (construct h).2 !! (construct h).1 = Some (Ready s)
    /\ cls_instance (construct h).2 = Some (construct h).1.
Proof.
  intros Hok. destruct (cls_instance h) as [a|] eqn:Hc.
  - destruct (Hok a Hc) as [o Ho]. unfold construct, __new__. rewrite Hc.
    simpl. rewrite lookup_alter_eq, Ho. simpl.
    destruct o as [|s]; eauto.
  - rewrite construct_first by done. simpl.
    exists fresh. by rewrite lookup_insert_eq.
Qed.

(** X15. [PerfStats()] and [get_instance()] always hand back the one
    instance.  The first construction allocates it and initialises it as a
    fresh, enabled, empty recorder; every later construction returns the
    same address and changes nothing, so it does not reset what was
    recorded: a duration submitted through one handle is in the bucket seen
    through a handle obtained afterwards. *)
Theorem singleton_is_shared h :
  heap_ok h ->
  let r1 := get_instance h in
  let r2 := construct r1.2 in
  r2 = r1
  /\ (cls_instance h = None ->
      objects r1.2 !! r1.1 = Some (Ready fresh))
  /\ (forall s n category tag v,
        objects r1.2 !! r1.1 = Some (Ready s) ->
        _enabled s = true ->
        exists w,
          call_on r1.1 (record_value category tag v) (r1.2, n) = Some (tt, w)
          /\ (get_instance w.1).1 = r1.1
          /\ exists s',
               objects (get_instance w.1).2 !! r1.1 = Some (Ready s')
               /\ bucket category tag s'
                  = (bucket category tag s ++ [v])%list).
Proof.
  intros Hok. cbv zeta. unfold get_instance.
  destruct (construct_ready h Hok) as (s0 & Hs0 & Hc0).
  split; [|split].
  - rewrite (construct_again _ _ _ Hc0 Hs0). by destruct (construct h).
  - intros Hnone. rewrite construct_first by done. simpl.
    apply lookup_insert_eq.
  - intros s n category tag v Hs Hen. unfold call_on. cbn [fst snd].
    rewrite Hs, record_value_enabled by done. cbn [self readings].
    eexists. split; [reflexivity|]. cbn [fst snd].
    match goal with
    | |- context [construct ?h1] =>
        rewrite (construct_again h1 (construct h).1
                   {| _data := data_append category tag v (_data s);
                      _start_times := _start_times s;
                      _enabled := true |})
    end.
    + split; [done|]. eexists. split; [apply lookup_insert_eq|].
      by eapply bucket_append_same.
    + done.
    + apply lookup_insert_eq.
Qed.

(** * Instances of the further properties *)

(** X5 on a recorder that holds one category. *)
Lemma get_stats_category_argument_witness :
  let s := self (run seconds_clock repr_whole
                   [RecordValue "Cat" "Tag" 1%Q] env0).2 in
  get_stats (Some "Other") s = OneCategory [].
Proof.
  intros s. apply (proj1 (get_stats_category_argument s) "Other"); done.
Defined.

(** X6 on a recorder with two categories and three buckets. *)
Lemma get_stats_enumerates_buckets_witness :
  let s := self (run seconds_clock repr_whole
                   [RecordValue "B" "y" 1%Q; RecordValue "A" "x" 2%Q;
                    RecordValue "B" "x" 3%Q; RecordValue "B" "y" 4%Q]
                   env0).2 in
  od_keys (all_categories (get_stats None s)) = ["B"; "A"]
  /\ length (report_lines s) = 7%nat.
Proof.
  intros s.
  destruct (proj1 get_stats_enumerates_buckets seconds_clock repr_whole
              [RecordValue "B" "y" 1%Q; RecordValue "A" "x" 2%Q;
               RecordValue "B" "x" 3%Q; RecordValue "B" "y" 4%Q])
    as [Hwf Hne].
  destruct (proj2 get_stats_enumerates_buckets s Hwf Hne) as (Hk & _ & Hl).
  split; [rewrite Hk | rewrite Hl]; reflexivity.
Defined.

(** X7 on two durations submitted to a fresh recorder. *)
Lemma record_value_keeps_order_witness :
  bucket "Cat" "Tag"
    (self (run seconds_clock repr_whole
             (map (RecordValue "Cat" "Tag") [0.2%Q; 0.1%Q]) env0).2)
  = [0.2%Q; 0.1%Q].
Proof.
  apply (proj1 (record_value_keeps_order seconds_clock repr_whole env0
                  "Cat" "Tag" [0.2%Q; 0.1%Q] eq_refl)).
Defined.

(** X8 on a sequence that times one block after a submission. *)
Lemma buckets_only_grow_witness :
  exists more,
    bucket "Cat" "Tag"
      (self (run seconds_clock repr_whole
               [StartRecord "Cat" "Tag" 11; Disable; Enable;
                EndRecord "Cat" "Tag" (Some "Cat::Tag::11::0.0")]
               (run seconds_clock repr_whole
                  [RecordValue "Cat" "Tag" 0.5%Q] env0).2).2)
    = ([0.5%Q] ++ more)%list.
Proof.
  apply (buckets_only_grow seconds_clock repr_whole
           [StartRecord "Cat" "Tag" 11; Disable; Enable;
            EndRecord "Cat" "Tag" (Some "Cat::Tag::11::0.0")]
           (run seconds_clock repr_whole
              [RecordValue "Cat" "Tag" 0.5%Q] env0).2 "Cat" "Tag").
  by repeat constructor.
Defined.

(** X9 on a start that other calls do not end. *)
Lemma pending_start_stays_witness :
  is_Some
    (_start_times
       (self (run seconds_clock repr_whole
                [RecordValue "Cat" "Tag" 0.5%Q;
                 EndRecord "Cat" "Tag" None;
                 EndRecord "Cat" "Tag" (Some "Cat::Tag::22::0.0");
                 Disable; StartRecord "Cat" "Tag" 11; Enable]
                (run seconds_clock repr_whole
                   [StartRecord "Cat" "Tag" 11] env0).2).2)
     !! "Cat::Tag::11::0.0").
Proof.
  apply (pending_start_stays seconds_clock repr_whole).
  - repeat constructor; done.
  - vm_compute. by eexists.
Defined.

(** X10 and X11 on a block whose body reads the clock once and raises. *)
Lemma with_timer_records_once_witness :
  let body : St (outcome unit) :=
    do _ <- perf_counter seconds_clock; ret (Raised "boom") in
  let r := with_timer seconds_clock repr_whole "Cat" "Tag" 11 body env0 in
  r.1 = Raised "boom"
  /\ bucket "Cat" "Tag" (self r.2)
     = [(seconds_clock 3 - seconds_clock 1)%Q].
Proof.
  intros body r.
  destruct (with_timer_records_once seconds_clock repr_whole env0
              "Cat" "Tag" 11 body eq_refl eq_refl)
    as (H1 & H2 & _).
  - by vm_compute.
  - split; [exact H1 | exact H2].
Defined.

Lemma with_timer_covers_body_witness :
  let body : St (outcome unit) :=
    do _ <- perf_counter seconds_clock; ret (Raised "boom") in
  let r := with_timer seconds_clock repr_whole "Cat" "Tag" 11 body env0 in
  exists sample,
    bucket "Cat" "Tag" (self r.2) = [sample]
    /\ (seconds_clock 3 - seconds_clock 2 <= sample)%Q.
Proof.
  intros body r.
  apply (with_timer_covers_body seconds_clock repr_whole
           seconds_clock_monotonic env0 "Cat" "Tag" 11 body 2 3 eq_refl eq_refl).
  - by vm_compute.
  - simpl. lia.
  - vm_compute. lia.
Defined.

(** X12 on a block that enables the recorder itself. *)
Lemma with_timer_disabled_witness :
  let body : St (outcome unit) := enable;; ret (Returned tt) in
  let e := (disable env0).2 in
  let r := with_timer seconds_clock repr_whole "Cat" "Tag" 11 body e in
  _data (self r.2) = [] /\ _enabled (self r.2) = true.
Proof.
  intros body e r.
  destruct (with_timer_disabled seconds_clock repr_whole e "Cat" "Tag" 11
              body eq_refl) as [_ H].
  fold r in H. by rewrite H.
Defined.

(** X13 on a fresh recorder. *)
Lemma end_record_after_reset_or_disable_witness :
  let r1 := start_record seconds_clock repr_whole "Cat" "Tag" 11 env0 in
  _data (self (end_record seconds_clock "Cat" "Tag" r1.1 (init r1.2).2).2)
  = [].
Proof.
  apply (proj1 (end_record_after_reset_or_disable seconds_clock repr_whole
                  env0 "Cat" "Tag" 11 eq_refl)).
Defined.

(** X14 on two threads asking with the same labels at the same instant. *)
Lemma token_determines_labels_witness :
  (start_record frozen_clock repr_whole "Cat" "Tag" 11 env0).1
  = (start_record frozen_clock repr_whole "Cat" "Tag" 11 env0).1
  /\ (start_record frozen_clock repr_whole "a::b" "c" 11 env0).1
     = (start_record frozen_clock repr_whole "a" "b::c" 11 env0).1.
Proof.
  split; [reflexivity|].
  apply (proj2 (token_determines_labels frozen_clock repr_whole)
           env0 "a" "b" "c" 11%N).
Defined.

(** X15 on the heap of a process that has not used the recorder yet. *)
Lemma singleton_is_shared_witness :
  construct (get_instance empty_heap).2 = get_instance empty_heap
  /\ objects (get_instance empty_heap).2 !! (get_instance empty_heap).1
     = Some (Ready fresh).
Proof.
  assert (Hok : heap_ok empty_heap) by (by intros a).
  destruct (singleton_is_shared empty_heap Hok) as (H1 & H2 & _).
  split; [exact H1 | by apply H2].
Defined.

(** * Concurrent timers leave nothing pending *)

Section timers_more.
Variable clock : nat -> Q.
Variable float_repr : Q -> string.
Variables category tag : string.
Hypothesis repr_colon_free : forall n, colon_free (float_repr (clock n)) = true.

Lemma sched_step_pending_held c j :
  timers_inv c -> pending_held c ->
  pending_held (sched_step clock float_repr category tag c j).
Proof.
  intros (Hen & Hid & Hh) Hp. unfold sched_step.
  destruct (c_pool c !! j) as [th|] eqn:Hj; [|done].
  assert (Hlt : (j < length (c_pool c))%nat) by (by eapply lookup_lt_Some).
  (* a thread other than [j] still holds what it held *)
  assert (Hother : forall p' (st' : gmap string Q) k,
             (forall k', is_Some (st' !! k') ->
                is_Some (_start_times (self (c_env c)) !! k')
                \/ held p' = Some k') ->
             (forall k', held (thread_pc th) = Some k' ->
                is_Some (st' !! k') -> held p' = Some k') ->
             is_Some (st' !! k) ->
             exists j' th',
               <[j := {| thread_ident := thread_ident th; thread_pc := p' |}]>
                 (c_pool c) !! j' = Some th'
               /\ held (thread_pc th') = Some k).
  { intros p' st' k Hnew Hkeep Hk.
    destruct (Hnew k Hk) as [Hold|Hheld].
    - destruct (Hp k Hold) as (j' & th' & Hj' & Hth').
      destruct (decide (j' = j)) as [->|Hne].
      + rewrite Hj in Hj'. injection Hj' as <-.
        exists j. eexists. split; [by apply list_lookup_insert_eq|].
        simpl. by apply Hkeep.
      + exists j', th'. split; [by rewrite list_lookup_insert_ne | done].
    - exists j. eexists. split; [by apply list_lookup_insert_eq | done]. }
  pose proof (Hh _ _ Hj) as Hth.
  destruct (thread_pc th) as [[|todo]|todo key|todo key|todo key end_time]
    eqn:Hpc.
  - rewrite timer_step_finished. intros k Hk. simpl in *.
    eapply Hother; [| |exact Hk]; [by left | done].
  - rewrite timer_step_idle, Hen. intros k Hk. simpl in *.
    eapply Hother; [| |exact Hk]; [by left | done].
  - rewrite timer_step_keyed. intros k Hk. simpl in *.
    eapply Hother; [| |exact Hk]; [|done].
    intros k' [<-|[_ ?]]%lookup_insert_is_Some; [by right | by left].
  - rewrite timer_step_inside, Hen. intros k Hk. simpl in *.
    eapply Hother; [| |exact Hk]; [by left | done].
  - rewrite timer_step_ending. simpl in Hth.
    destruct Hth as (k0 & -> & Ho & [t0 Hs]).
    assert (Hkp : key_pending (Some k0) (self (c_env c)) = Some (k0, t0)).
    { apply key_pending_Some. split; [done|]. split; [|done].
      by eapply owner_nonempty. }
    rewrite Hkp. intros k Hk. simpl in *.
    destruct (decide (k = k0)) as [->|Hne].
    { rewrite lookup_delete_eq in Hk. by destruct Hk. }
    rewrite lookup_delete_ne in Hk by done.
    destruct (Hp k Hk) as (j' & th' & Hj' & Hth').
    destruct (decide (j' = j)) as [->|Hnej].
    + rewrite Hj in Hj'. injection Hj' as <-. rewrite Hpc in Hth'.
      simpl in Hth'. congruence.
    + exists j', th'. split; [by rewrite list_lookup_insert_ne | done].
Qed.

Lemma run_schedule_pending_held schedule c :
  timers_inv c -> pending_held c ->
  pending_held (run_schedule clock float_repr category tag schedule c).
Proof.
  revert c. induction schedule as [|j schedule IH]; intros c Hinv Hp; [done|].
  unfold run_schedule. cbn [fold_left]. apply IH.
  - by apply (sched_step_inv clock float_repr category tag repr_colon_free).
  - by apply sched_step_pending_held.
Qed.

(** X16. Threads with distinct identifiers that run [PerfTimer] blocks
    against a recorder without pending starts leave none behind: whenever
    all threads have completed their blocks, in whatever way they were
    interleaved, [_start_times] is empty again. *)
Theorem concurrent_timers_leave_nothing_pending idents blocks schedule e0 :
  NoDup idents ->
  _enabled (self e0) = true ->
  _start_times (self e0) = ∅ ->
  let c := run_schedule clock float_repr category tag schedule
             {| c_env := e0; c_pool := spawn idents blocks |} in
  Forall finished (c_pool c) ->
  _start_times (self (c_env c)) = ∅.
Proof.
  intros Hnd Hen Hempty c Hfin.
  assert (Hp : pending_held c).
  { apply run_schedule_pending_held.
    - by apply spawn_inv.
    - intros k Hk. simpl in Hk. rewrite Hempty, lookup_empty in Hk.
      by destruct Hk. }
  apply map_eq. intros k. rewrite lookup_empty.
  destruct (_start_times (self (c_env c)) !! k) as [t0|] eqn:Hk; [|done].
  destruct (Hp k) as (j & th & Hj & Hheld); [by eexists|].
  rewrite Forall_lookup in Hfin. rewrite (Hfin _ _ Hj) in Hheld. done.
Qed.
End timers_more.

Lemma concurrent_timers_leave_nothing_pending_witness :
  let c := run_schedule seconds_clock repr_whole "ThreadCat" "ThreadTag"
             [0; 1; 0; 1; 1; 0; 0; 1; 1; 1; 0; 0; 0; 1; 1; 0]%nat
             {| c_env := env0; c_pool := spawn [11%N; 22%N] 2 |} in
  _start_times (self (c_env c)) = ∅.
Proof.
  intros c.
  apply (concurrent_timers_leave_nothing_pending seconds_clock repr_whole
           "ThreadCat" "ThreadTag"
           (fun n => repr_whole_colon_free (seconds_clock n))
           [11%N; 22%N] 2
           [0; 1; 0; 1; 1; 0; 0; 1; 1; 1; 0; 0; 0; 1; 1; 0]%nat env0
           ltac:(apply NoDup_cons; split;
                   [by intros ?%list_elem_of_singleton
                   | apply NoDup_singleton])
           eq_refl eq_refl).
  by repeat constructor.
Defined.

(** * The width of a report row *)

Lemma string_length_app (s1 s2 : string) :
  String.length (s1 +:+ s2) = (String.length s1 + String.length s2)%nat.
Proof.
  induction s1 as [|c s1 IH]; [done|].
  rewrite string_app_cons. simpl. by rewrite IH.
Qed.

Lemma length_spaces n : String.length (spaces n) = n.
Proof. induction n as [|n IH]; [done|]. simpl. by rewrite IH. Qed.

Lemma length_ljust w s :
  String.length (ljust w s) = Nat.max w (String.length s).
Proof. unfold ljust. rewrite string_length_app, length_spaces. lia. Qed.

Lemma report_row_length cat tag stat :
  String.length (report_row cat tag stat)
  = (Nat.max 15 (String.length cat) + Nat.max 15 (String.length tag)
     + Nat.max 6 (String.length (pretty (N.of_nat (stat_count stat))))
     + Nat.max 8 (String.length (format_3f (avg_filtered stat * 1000)%Q))
     + Nat.max 8 (String.length (format_3f (stat_min stat * 1000)%Q))
     + Nat.max 8 (String.length (format_3f (stat_max stat * 1000)%Q))
     + 15)%nat.
Proof.
  unfold report_row. rewrite !string_length_app, !length_ljust.
  change (String.length " | ") with 3%nat. lia.
Qed.

(** X17. Report rows pad and never cut: a row is never narrower than the
    header, and it is exactly as wide as the header, so that the columns
    line up, precisely when the category, the tag, the count and the three
    formatted numbers each fit their column (15, 15, 6, 8, 8 and 8
    characters). *)
Theorem report_row_width cat tag stat :
  String.length report_header = row_width
  /\ (row_width <= String.length (report_row cat tag stat))%nat
  /\ (String.length (report_row cat tag stat) = row_width <->
      Forall2 (fun field width => (String.length field <= width)%nat)
        (row_fields cat tag stat) column_widths).
Proof.
  split; [done|]. rewrite report_row_length.
  change row_width with 75%nat. split; [lia|].
  unfold row_fields, column_widths. rewrite !Forall2_cons, Forall2_nil.
  lia.
Qed.
